(** * Telugu spell checker: a shallow embedding of [spell_checker.py]

    Python strings are sequences of Unicode code points, so a word is a list
    of code points ([N]); [set] objects are [gset]s whose iteration order is
    an explicit parameter ([SetOrder]); the frequency table [WORDS] is a
    [gmap] from words to Python integers ([Z]). *)

From stdpp Require Import gmap list sorting.

(** ** Strings *)

Definition codepoint := N.
Abbreviation str := (list codepoint).

(** [TELUGU_ALPHABET]: the 54 code points of the literal, in order.  The
    conjunct written as one glyph near the end is the three code points
    KA, VIRAMA, SSA, so KA and SSA occur twice. *)
Definition TELUGU_ALPHABET : str :=
  [ 0x0C05; 0x0C06; 0x0C07; 0x0C08; 0x0C09; 0x0C0A; 0x0C0B; 0x0C60; 0x0C0E;
    0x0C0F; 0x0C10; 0x0C12; 0x0C13; 0x0C14; 0x0C02; 0x0C03; 0x0C15; 0x0C16;
    0x0C17; 0x0C18; 0x0C19; 0x0C1A; 0x0C1B; 0x0C1C; 0x0C1D; 0x0C1E; 0x0C1F;
    0x0C20; 0x0C21; 0x0C22; 0x0C23; 0x0C24; 0x0C25; 0x0C26; 0x0C27; 0x0C28;
    0x0C2A; 0x0C2B; 0x0C2C; 0x0C2D; 0x0C2E; 0x0C2F; 0x0C30; 0x0C32; 0x0C35;
    0x0C36; 0x0C37; 0x0C38; 0x0C39; 0x0C33; 0x0C15; 0x0C4D; 0x0C37; 0x0C31
  ]%N.

(** ** edits1 *)

(** [[(word[:i], word[i:]) for i in range(len(word) + 1)]] *)
Definition splits (word : str) : list (str * str) :=
  (λ i, (take i word, drop i word)) <$> seq 0 (length word + 1).

(** [[L + R[1:] for L, R in splits if R]] *)
Definition deletes (word : str) : list str :=
  '(L, R) ← splits word;
  if bool_decide (R ≠ []) then [L ++ drop 1 R] else [].

(** [[L + R[1] + R[0] + R[2:] for L, R in splits if len(R) > 1]] *)
Definition transposes (word : str) : list str :=
  '(L, R) ← splits word;
  match R with
  | r0 :: r1 :: _ => [L ++ [r1] ++ [r0] ++ drop 2 R]
  | _ => []
  end.

(** [[L + c + R[1:] for L, R in splits if R for c in TELUGU_ALPHABET]] *)
Definition replaces (word : str) : list str :=
  '(L, R) ← splits word;
  if bool_decide (R ≠ []) then c ← TELUGU_ALPHABET; [L ++ [c] ++ drop 1 R]
  else [].

(** [[L + c + R for L, R in splits for c in TELUGU_ALPHABET]] *)
Definition inserts (word : str) : list str :=
  '(L, R) ← splits word;
  c ← TELUGU_ALPHABET; [L ++ [c] ++ R].

(** [set(deletes + transposes + replaces + inserts)] *)
Definition edits1 (word : str) : gset str :=
  list_to_set (deletes word ++ transposes word ++ replaces word ++ inserts word).

(** The four kinds of edit, stated on the strings: what it is for [e] to
    come from [w] by one deletion, one swap of neighbours, one replacement
    by an alphabet symbol, one insertion of an alphabet symbol. *)
Definition deletion (w e : str) : Prop :=
  ∃ L a R, w = L ++ a :: R ∧ e = L ++ R.
Definition transposition (w e : str) : Prop :=
  ∃ L a b R, w = L ++ a :: b :: R ∧ e = L ++ b :: a :: R.
Definition replacement (w e : str) : Prop :=
  ∃ L a c R, w = L ++ a :: R ∧ c ∈ TELUGU_ALPHABET ∧ e = L ++ c :: R.
Definition insertion (w e : str) : Prop :=
  ∃ L c R, w = L ++ R ∧ c ∈ TELUGU_ALPHABET ∧ e = L ++ c :: R.

(** ** Iteration order of sets

    A Python [set] of strings is iterated in an order fixed by the string
    hashes and the insertion history; the program never chooses it.  It is
    kept as a parameter: any enumeration of the elements, each once. *)
Class SetOrder := {
  set_iter : gset str → list str;
  set_iter_perm X : set_iter X ≡ₚ elements X
}.

(** Two enumerations, to run the definitions and to compare orders. *)
#[local] Program Instance elements_order : SetOrder := {|
  set_iter X := elements X
|}.
Next Obligation. done. Qed.

#[local] Program Instance reverse_order : SetOrder := {|
  set_iter X := reverse (elements X)
|}.
Next Obligation. intros X. apply reverse_Permutation. Qed.

(** ** Exceptions *)

Inductive exn := FileNotFoundError | JSONDecodeError | IndexError.

Inductive result (A : Type) : Type :=
  | Ok (a : A)
  | Raise (e : exn).
Arguments Ok {A} a.
Arguments Raise {A} e.

#[global] Instance result_ret : MRet result := λ A a, Ok a.
#[global] Instance result_bind : MBind result := λ A B k m,
  match m with Ok a => k a | Raise e => Raise e end.

(** [sorted(l, key=key, reverse=True)]: the stable sort by decreasing key.
    An element moves behind another only when its key is strictly smaller,
    so elements with equal keys keep the order they come in. *)
Fixpoint insert_reverse {A} (key : A → Z) (x : A) (l : list A) : list A :=
  match l with
  | [] => [x]
  | y :: l' =>
      if (key x <? key y)%Z then y :: insert_reverse key x l' else x :: l
  end.

Definition sorted_reverse {A} (key : A → Z) (l : list A) : list A :=
  foldr (insert_reverse key) [] l.

(** The order of a list sorted by decreasing key. *)
Definition ge_key {A} (key : A → Z) (a b : A) : Prop := (key b ≤ key a)%Z.

(** A [for] loop over a list whose body updates a state and may raise. *)
Fixpoint for_each {S A} (body : S → A → result S) (l : list A) (st : S)
  : result S :=
  match l with
  | [] => Ok st
  | x :: l' => st' ← body st x; for_each body l' st'
  end.

(** ** The regular expressions of [correct_text] *)

(** [[\u0C00-\u0C7F]] *)
Definition is_telugu (c : codepoint) : bool :=
  ((0x0C00 <=? c) && (c <=? 0x0C7F))%N.

Definition ascii_isalnum (c : codepoint) : bool :=
  (((48 <=? c) && (c <=? 57)) || ((65 <=? c) && (c <=? 90))
   || ((97 <=? c) && (c <=? 122)))%N.

(** [re.match(r'[\u0C00-\u0C7F]+', part)]: a match at the start of [part]. *)
Definition re_match_telugu (part : str) : bool :=
  match part with
  | c :: _ => is_telugu c
  | [] => false
  end.

Section Regex.

(** Which code points above ASCII are alphanumeric is a table of the Unicode
    database, not of this program: it is left open. *)
Variable uni_isalnum : codepoint → bool.

Definition isalnum (c : codepoint) : bool :=
  if (c <? 128)%N then ascii_isalnum c else uni_isalnum c.

(** [\w] on a [str] pattern: alphanumeric or underscore; [\W] is the rest. *)
Definition is_word_char (c : codepoint) : bool := isalnum c || (c =? 95)%N.
Definition is_nonword_char (c : codepoint) : bool := negb (is_word_char c).

(** [re.findall(r'([\u0C00-\u0C7F]+|\W+)', text)] scans left to right.  At a
    position where no match is open, a Telugu code point opens a run of the
    first alternative, otherwise a [\W] code point opens a run of the
    second, otherwise the code point is passed over.  Both alternatives are
    greedy runs of one character class, so an open run takes every following
    code point of its class. *)
Inductive scan_state :=
  | Idle
  | InTelugu (acc : str)
  | InNonWord (acc : str).

Definition start (c : codepoint) : scan_state :=
  if is_telugu c then InTelugu [c]
  else if is_nonword_char c then InNonWord [c]
  else Idle.

(** What a state has matched so far, and the part it gives at the end of
    the text. *)
Definition pending (st : scan_state) : str :=
  match st with
  | Idle => []
  | InTelugu acc | InNonWord acc => acc
  end.

Definition flush (st : scan_state) : list str :=
  match st with
  | Idle => []
  | InTelugu acc | InNonWord acc => [acc]
  end.

Fixpoint scan (st : scan_state) (text : str) : list str :=
  match text with
  | [] => flush st
  | c :: rest =>
      match st with
      | Idle => scan (start c) rest
      | InTelugu acc =>
          if is_telugu c then scan (InTelugu (acc ++ [c])) rest
          else acc :: scan (start c) rest
      | InNonWord acc =>
          if is_nonword_char c then scan (InNonWord (acc ++ [c])) rest
          else acc :: scan (start c) rest
      end
  end.

Definition findall (text : str) : list str := scan Idle text.

(** The code points that [findall] keeps in some part: those of the Telugu
    block and those of [\W]. *)
Definition kept (c : codepoint) : bool := is_telugu c || is_nonword_char c.

(** The two shapes of a part: a run of the first alternative, and a run of
    the second, which starts where the first alternative does not match. *)
Definition telugu_run (part : str) : Prop :=
  part ≠ [] ∧ Forall (λ c, is_telugu c = true) part.
Definition nonword_run (part : str) : Prop :=
  part ≠ [] ∧ re_match_telugu part = false
  ∧ Forall (λ c, is_nonword_char c = true) part.

Definition state_ok (st : scan_state) : Prop :=
  match st with
  | Idle => True
  | InTelugu acc => telugu_run acc
  | InNonWord acc => nonword_run acc
  end.

End Regex.

(** ** SpellChecker *)

(** The attributes of a checker.  [candidates_map] is a [dict]; the order
    of its keys is not kept here.  [correct_text] binds a new map to the
    attribute on every call (it does not clear the old one), so a map that
    an earlier call returned is a value of its own. *)
Record SpellChecker := mkSpellChecker {
  model_path : str;
  WORDS : gmap str Z;
  TOTAL_WORDS : Z;
  source_document : option str;
  candidates_map : gmap str (list str)
}.

(** What [open] and [json.load] find at a path. *)
Inductive model_file :=
  | Absent                         (* no such file *)
  | Malformed                      (* a file that is not JSON *)
  | Stored (table : gmap str Z).   (* a JSON object: word to count *)

(** [with open(model_path) as f: ... json.load(f)] *)
Definition load_json (f : model_file) : result (gmap str Z) :=
  match f with
  | Absent => Raise FileNotFoundError
  | Malformed => Raise JSONDecodeError
  | Stored table => Ok table
  end.

(** [sum(self.WORDS.values())] *)
Definition sum_values (m : gmap str Z) : Z :=
  map_fold (λ _ v acc, (acc + v)%Z) 0%Z m.

(** [SpellChecker.__init__]: only [FileNotFoundError] is caught. *)
Definition init (path : str) (fs : str → model_file) : result SpellChecker :=
  match load_json (fs path) with
  | Ok table => Ok (mkSpellChecker path table (sum_values table) None ∅)
  | Raise FileNotFoundError => Ok (mkSpellChecker path ∅ 0%Z None ∅)
  | Raise e => Raise e
  end.

Section Checker.

Context {SO : SetOrder}.

(** [edits2]: the generator, as the sequence it yields. *)
Definition edits2 (word : str) : list str :=
  e1 ← set_iter (edits1 word); set_iter (edits1 e1).

(** [known]: [set(w for w in words if w in self.WORDS)] *)
Definition known (WORDS : gmap str Z) (words : list str) : gset str :=
  list_to_set (filter (λ w, is_Some (WORDS !! w)) words).

(** Lines 56-58 of [get_candidates]: the word itself and its one-edit
    neighbours, as far as they are known. *)
Definition tier01 (WORDS : gmap str Z) (word : str) : gset str :=
  known WORDS [word] ∪ known WORDS (set_iter (edits1 word)).

(** Lines 60-61: the two-edit neighbours are added under the guard only. *)
Definition candidate_set (WORDS : gmap str Z) (word : str) : gset str :=
  let candidates := tier01 WORDS word in
  if bool_decide (candidates = ∅) && bool_decide (WORDS !! word = None)
  then candidates ∪ known WORDS (set_iter (list_to_set (edits2 word)))
  else candidates.

(** Lines 66-70: pair each candidate with its count and sort. *)
Definition rank (WORDS : gmap str Z) (candidates : gset str)
  : list (str * Z) :=
  sorted_reverse snd
    ((λ c, (c, default 0%Z (WORDS !! c))) <$> set_iter candidates).

Definition get_candidates (WORDS : gmap str Z) (word : str)
  : list (str * Z) :=
  let candidates := candidate_set WORDS word in
  if bool_decide (candidates = ∅) then [(word, 0%Z)]
  else rank WORDS candidates.

(** [ranked_candidates[0]] raises [IndexError] on an empty list. *)
Definition correct_word (WORDS : gmap str Z) (word : str)
  : result (str * list (str * Z)) :=
  let ranked_candidates := get_candidates WORDS word in
  match ranked_candidates with
  | (best_correction, _) :: _ => Ok (best_correction, ranked_candidates)
  | [] => Raise IndexError
  end.

(** The loop of [correct_text], part by part: the best word of a part,
    whether the part is a word that gets replaced, what is appended to
    [corrected_parts] and what becomes of [candidates_map]. *)
Definition best_word (WORDS : gmap str Z) (word : str) : str :=
  match get_candidates WORDS word with
  | (best_correction, _) :: _ => best_correction
  | [] => word
  end.

Definition misspelled (WORDS : gmap str Z) (part : str) : bool :=
  re_match_telugu part && bool_decide (best_word WORDS part ≠ part).

Definition emitted (WORDS : gmap str Z) (part : str) : str :=
  if re_match_telugu part then best_word WORDS part else part.

Definition recorded (WORDS : gmap str Z) (cm : gmap str (list str))
    (part : str) : gmap str (list str) :=
  if misspelled WORDS part
  then <[part := (get_candidates WORDS part).*1]> cm
  else cm.

Variable uni_isalnum : codepoint → bool.

(** The body of the loop of [correct_text]; the state is [corrected_parts]
    and the checker, whose [candidates_map] the body assigns into. *)
Definition correct_part (st : list str * SpellChecker) (part : str)
  : result (list str * SpellChecker) :=
  let '(corrected_parts, self) := st in
  if re_match_telugu part then
    '(best_correction, candidates_with_freq) ← correct_word (WORDS self) part;
    if bool_decide (best_correction ≠ part) then
      Ok (corrected_parts ++ [best_correction],
          mkSpellChecker (model_path self) (WORDS self) (TOTAL_WORDS self)
            (source_document self)
            (<[part := candidates_with_freq.*1]> (candidates_map self)))
    else Ok (corrected_parts ++ [part], self)
  else Ok (corrected_parts ++ [part], self).

(** [correct_text] returns the corrected sentence and the candidates map,
    and leaves the checker with the new document and map. *)
Definition correct_text (self : SpellChecker) (text : str)
  : result ((str * gmap str (list str)) * SpellChecker) :=
  let self := mkSpellChecker (model_path self) (WORDS self) (TOTAL_WORDS self)
                (Some text) ∅ in
  let parts := findall uni_isalnum text in
  '(corrected_parts, self) ← for_each correct_part parts ([], self);
  let corrected_sentence := concat corrected_parts in
  Ok ((corrected_sentence, candidates_map self), self).

End Checker.

(** ** build_model.py: tokenize *)

(** [re.findall(r'[\u0C00-\u0C7F]+', text)]: the runs of Telugu-block code
    points, left to right; [cur] is the match that is open, if any. *)
Fixpoint scan_telugu (cur : option str) (text : str) : list str :=
  match text with
  | [] => match cur with Some acc => [acc] | None => [] end
  | c :: rest =>
      if is_telugu c then scan_telugu (Some (default [] cur ++ [c])) rest
      else
        match cur with
        | Some acc => acc :: scan_telugu None rest
        | None => scan_telugu None rest
        end
  end.

(** [tokenize]: [None] and the empty string are both "not text". *)
Definition tokenize (text : option str) : list str :=
  match text with
  | None | Some [] => []
  | Some text => scan_telugu None text
  end.

(** ** build_model.py: build_model *)

(** [Counter.update(words)]: one more for every element of [words], counted
    from 0 for a word that is not yet a key. *)
Definition counter_update (counts : gmap str Z) (words : list str)
  : gmap str Z :=
  foldl (λ m w, <[w := (default 0 (m !! w) + 1)%Z]> m) counts words.

(** [s.split(sep)[0]] for a one-character [sep]: what stands before the
    first [sep], all of [s] when there is none. *)
Fixpoint before_first (sep : codepoint) (s : str) : str :=
  match s with
  | [] => []
  | c :: s' => if (c =? sep)%N then [] else c :: before_first sep s'
  end.

(** [s.strip(ch)] for a one-character [ch]. *)
Fixpoint lstrip (ch : codepoint) (s : str) : str :=
  match s with
  | [] => []
  | c :: s' => if (c =? ch)%N then lstrip ch s' else s
  end.
Definition rstrip (ch : codepoint) (s : str) : str :=
  reverse (lstrip ch (reverse s)).
Definition strip (ch : codepoint) (s : str) : str := rstrip ch (lstrip ch s).

Definition lbrace : codepoint := 123%N.
Definition rbrace : codepoint := 125%N.
(** ['page'], ['./'], ['revision/'], ['text'] *)
Definition page_name : str := [112; 97; 103; 101]%N.
Definition dot_slash : str := [46; 47]%N.
Definition revision_slash : str := [114; 101; 118; 105; 115; 105; 111; 110; 47]%N.
Definition text_name : str := [116; 101; 120; 116]%N.

(** [root.tag.split('}')[0].strip('{')] *)
Definition namespace_of (root_tag : str) : str :=
  strip lbrace (before_first rbrace root_tag).

(** [f'{{{namespace}}}page'] and
    [f'./{{{namespace}}}revision/{{{namespace}}}text'] *)
Definition qualified (namespace name : str) : str :=
  [lbrace] ++ namespace ++ [rbrace] ++ name.
Definition text_path_of (namespace : str) : str :=
  dot_slash ++ qualified namespace revision_slash
    ++ qualified namespace text_name.

(** What the loop reads of an element: its tag, and for a path what
    [elem.find(path)] gives: [None] when there is no such child, else the
    child's [.text], itself [None] or a string.  How ElementTree resolves a
    path is not part of this program. *)
Record Element := mkElement {
  tag : str;
  find_text : str → option (option str)
}.

Inductive event_kind := StartEvent | EndEvent.

#[global] Instance event_kind_eq_dec : EqDecision event_kind.
Proof. solve_decision. Defined.

(** What [ET.iterparse] finds at a path: no file, or the events the parser
    yields, after which the iteration ends ([well_formed]) or raises
    [ParseError]. *)
Inductive xml_file :=
  | NoXml
  | Xml (events : list (event_kind * Element)) (well_formed : bool).

Inductive build_exn := XmlFileNotFound | StopIteration | ParseError.

(** The body of the loop over the events; the state is [word_counts] and
    [page_count]. *)
Definition count_event (namespace text_path : str)
    (st : gmap str Z * nat) (ev : event_kind * Element) : gmap str Z * nat :=
  let '(word_counts, page_count) := st in
  let '(event, elem) := ev in
  match event with
  | EndEvent =>
      if bool_decide (tag elem = qualified namespace page_name) then
        let word_counts :=
          match find_text elem text_path with
          | Some (Some (c :: t)) =>
              counter_update word_counts (tokenize (Some (c :: t)))
          | _ => word_counts
          end in
        (word_counts, S page_count)
      else st
  | StartEvent => st
  end.

(** The [try] block of [build_model] up to the dump: the counts and the
    number of pages, or the exception that ends it. *)
Definition build_counts (f : xml_file) : build_exn + (gmap str Z * nat) :=
  match f with
  | NoXml => inl XmlFileNotFound
  | Xml [] well_formed =>
      inl (if well_formed then StopIteration else ParseError)
  | Xml ((_, root) :: context) well_formed =>
      let namespace := namespace_of (tag root) in
      let text_path := text_path_of namespace in
      let st := foldl (count_event namespace text_path) (∅, 0) context in
      if well_formed then inr st else inl ParseError
  end.

(** What becomes of [open(output_path, 'w')] and [json.dump]: the table is
    written; or [open] raises and the file is as it was; or [open] has
    emptied the file and the dump raises before the end, which leaves a
    file that is not JSON. *)
Inductive write_outcome := Written | OpenFails | DumpFails.

(** [build_model]: the model file is written after the loop, inside the
    [try]; both handlers print and return, also for an exception of the
    write.  A table that was dumped is read back by [json.load] as the same
    table (string keys, integer values). *)
Definition build_model (xml_path output_path : str)
    (xmls : str → xml_file) (io : str → write_outcome)
    (fs : str → model_file) : str → model_file :=
  match build_counts (xmls xml_path) with
  | inr (word_counts, _) =>
      match io output_path with
      | Written =>
          λ p, if bool_decide (p = output_path) then Stored word_counts
               else fs p
      | OpenFails => fs
      | DumpFails =>
          λ p, if bool_decide (p = output_path) then Malformed else fs p
      end
  | inl _ => fs
  end.

(** What the loop of [build_model] counts, read off the events: the
    tokens of a page, the tokens of all pages in their order, and how often
    a word is among them. *)
Definition page_tokens (namespace : str) (ev : event_kind * Element)
  : list str :=
  match ev with
  | (EndEvent, elem) =>
      if bool_decide (tag elem = qualified namespace page_name) then
        match find_text elem (text_path_of namespace) with
        | Some text => tokenize text
        | None => []
        end
      else []
  | (StartEvent, _) => []
  end.

Definition corpus_tokens (f : xml_file) : list str :=
  match f with
  | Xml ((_, root) :: context) _ =>
      context ≫= page_tokens (namespace_of (tag root))
  | _ => []
  end.

Definition occurrences (w : str) (words : list str) : nat :=
  length (filter (w =.) words).

(** ** Sample words and models *)

(** The first misspelling of the predefined test cases, [mahana], and the
    word one deletion away from it. *)
Definition maha : str := [0x0C2E; 0x0C39; 0x0C3E]%N.
Definition mahana : str := [0x0C2E; 0x0C39; 0x0C3E; 0x0C28]%N.

(** Both words known, the shorter one the more frequent. *)
Definition skewed_model : gmap str Z := {[ maha := 50%Z; mahana := 3%Z ]}.

(** The model of the worked scenario: [maha] and [desam]. *)
Definition desam : str := [0x0C26; 0x0C47; 0x0C36; 0x0C02]%N.
Definition scenario_model : gmap str Z := {[ maha := 50%Z; desam := 40%Z ]}.

(** Both words known and equally frequent. *)
Definition tied_model : gmap str Z := {[ maha := 50%Z; mahana := 50%Z ]}.

(** One known word, eight characters long. *)
Definition far_model : gmap str Z := {[ mahana ++ mahana := 7%Z ]}.

(** The text [ab 12] as code points. *)
Definition latin_text : str := [97; 98; 32; 49; 50]%N.

(** [MODEL_PATH = 'telugu_word_model.json'] *)
Definition MODEL_PATH : str :=
  [116; 101; 108; 117; 103; 117; 95; 119; 111; 114; 100; 95; 109; 111; 100;
   101; 108; 46; 106; 115; 111; 110]%N.

(** * Properties *)

(** ** Lists *)

Lemma bind_ext_list {A B} (f g : A → list B) (l : list A) :
  (∀ x, f x = g x) → l ≫= f = l ≫= g.
Proof.
  intros Hfg. induction l as [|x l IH]; [done|].
  rewrite !bind_cons. by rewrite Hfg, IH.
Qed.

Lemma bind_fmap_list {A B C} (f : A → B) (g : B → list C) (l : list A) :
  (f <$> l) ≫= g = l ≫= (g ∘ f).
Proof.
  induction l as [|x l IH]; [done|].
  rewrite fmap_cons, !bind_cons. by rewrite IH.
Qed.

Lemma fmap_bind_list {A B C} (f : B → C) (g : A → list B) (l : list A) :
  f <$> (l ≫= g) = l ≫= (λ x, f <$> g x).
Proof.
  induction l as [|x l IH]; [done|].
  rewrite !bind_cons, fmap_app. by rewrite IH.
Qed.

Lemma bind_singleton_list {A B} (f : A → B) (l : list A) :
  l ≫= (λ x, [f x]) = f <$> l.
Proof.
  induction l as [|x l IH]; [done|].
  rewrite bind_cons, fmap_cons. by rewrite IH.
Qed.

(** ** The four edit lists, one character at a time *)

Lemma splits_nil : splits [] = [([], [])].
Proof. done. Qed.

Lemma splits_cons c w :
  splits (c :: w) = ([], c :: w) :: ((λ p, (c :: p.1, p.2)) <$> splits w).
Proof.
  unfold splits. cbn [length]. rewrite Nat.add_succ_l. cbn [seq fmap list_fmap].
  f_equal. rewrite <- fmap_S_seq, <- !list_fmap_compose.
  apply list_fmap_ext. by intros i x _.
Qed.

Lemma deletes_cons c w : deletes (c :: w) = w :: (cons c <$> deletes w).
Proof.
  unfold deletes. rewrite splits_cons, bind_cons, bind_fmap_list, fmap_bind_list.
  cbn. f_equal. apply bind_ext_list. intros [L R]; cbn.
  by case_bool_decide.
Qed.

Lemma transposes_cons c w :
  transposes (c :: w) =
    match w with d :: w' => [d :: c :: w'] | [] => [] end
    ++ (cons c <$> transposes w).
Proof.
  unfold transposes. rewrite splits_cons, bind_cons, bind_fmap_list, fmap_bind_list.
  apply (f_equal2 app); [by destruct w|].
  apply bind_ext_list. intros [L R]; cbn. by destruct R as [|? [|??]].
Qed.

Lemma replaces_cons c w :
  replaces (c :: w) =
    ((λ a, a :: w) <$> TELUGU_ALPHABET) ++ (cons c <$> replaces w).
Proof.
  unfold replaces. rewrite splits_cons, bind_cons, bind_fmap_list, fmap_bind_list.
  apply (f_equal2 app); [by rewrite <- bind_singleton_list|].
  apply bind_ext_list. intros [L R]; cbn [compose fst snd].
  case_bool_decide; [|done].
  by rewrite fmap_bind_list.
Qed.

Lemma inserts_nil : inserts [] = (λ a, [a]) <$> TELUGU_ALPHABET.
Proof. done. Qed.

Lemma inserts_cons c w :
  inserts (c :: w) =
    ((λ a, a :: c :: w) <$> TELUGU_ALPHABET) ++ (cons c <$> inserts w).
Proof.
  unfold inserts. rewrite splits_cons, bind_cons, bind_fmap_list, fmap_bind_list.
  apply (f_equal2 app); [by rewrite <- bind_singleton_list|].
  apply bind_ext_list. intros [L R]; cbn [compose fst snd].
  by rewrite fmap_bind_list.
Qed.

(** ** How many strings each edit list holds *)

Lemma length_deletes w : length (deletes w) = length w.
Proof.
  induction w as [|c w IH]; [done|].
  rewrite deletes_cons. cbn [length]. by rewrite length_fmap, IH.
Qed.

Lemma length_transposes w : length (transposes w) = length w - 1.
Proof.
  induction w as [|c w IH]; [done|].
  rewrite transposes_cons, length_app, length_fmap, IH.
  destruct w; cbn [length]; lia.
Qed.

Lemma length_replaces w :
  length (replaces w) = length w * length TELUGU_ALPHABET.
Proof.
  induction w as [|c w IH]; [done|].
  rewrite replaces_cons, length_app, !length_fmap, IH. cbn [length]. lia.
Qed.

Lemma length_inserts w :
  length (inserts w) = (length w + 1) * length TELUGU_ALPHABET.
Proof.
  induction w as [|c w IH]; [done|].
  rewrite inserts_cons, length_app, !length_fmap, IH. cbn [length]. lia.
Qed.

Lemma size_list_to_set_le (l : list str) :
  size (list_to_set l : gset str) ≤ length l.
Proof.
  induction l as [|x l IH]; [done|].
  rewrite list_to_set_cons, size_union_alt, size_singleton. cbn [length].
  assert (size (list_to_set l ∖ {[x]} : gset str) ≤ size (list_to_set l : gset str))
    by (apply subseteq_size; intros y [Hy _]%elem_of_difference; exact Hy).
  lia.
Qed.

(** ** What each edit list holds *)

Lemma elem_of_deletes w e : e ∈ deletes w ↔ deletion w e.
Proof.
  revert e. induction w as [|c w IH]; intros e.
  - split; [by intros ?%elem_of_nil|]. by intros ([|??] & ? & ? & ? & _).
  - rewrite deletes_cons, elem_of_cons, list_elem_of_fmap. split.
    + intros [->|(e' & -> & (L & a & R & -> & ->)%IH)].
      * by exists [], c, w.
      * by exists (c :: L), a, R.
    + intros ([|x L] & a & R & Hw & ->); simplify_eq/=; [by left|].
      right. exists (L ++ R). split; [done|]. apply IH. by exists L, a, R.
Qed.

Lemma elem_of_transposes w e : e ∈ transposes w ↔ transposition w e.
Proof.
  revert e. induction w as [|c w IH]; intros e.
  - split; [by intros ?%elem_of_nil|]. by intros ([|??] & ? & ? & ? & ? & _).
  - rewrite transposes_cons, elem_of_app, list_elem_of_fmap. split.
    + intros [He|(e' & -> & (L & a & b & R & -> & ->)%IH)].
      * destruct w as [|d w']; [by apply elem_of_nil in He|].
        apply list_elem_of_singleton in He as ->. by exists [], c, d, w'.
      * by exists (c :: L), a, b, R.
    + intros ([|x L] & a & b & R & Hw & ->); simplify_eq/=.
      * left. apply list_elem_of_singleton. done.
      * right. exists (L ++ b :: a :: R). split; [done|].
        apply IH. by exists L, a, b, R.
Qed.

Lemma elem_of_replaces w e : e ∈ replaces w ↔ replacement w e.
Proof.
  revert e. induction w as [|c w IH]; intros e.
  - split; [by intros ?%elem_of_nil|]. by intros ([|??] & ? & ? & ? & ? & _).
  - rewrite replaces_cons, elem_of_app, !list_elem_of_fmap. split.
    + intros [(a & -> & Ha)|(e' & -> & (L & a & x & R & -> & Hx & ->)%IH)].
      * by exists [], c, a, w.
      * by exists (c :: L), a, x, R.
    + intros ([|y L] & a & x & R & Hw & Hx & ->); simplify_eq/=.
      * left. by exists x.
      * right. exists (L ++ x :: R). split; [done|].
        apply IH. by exists L, a, x, R.
Qed.

Lemma elem_of_inserts w e : e ∈ inserts w ↔ insertion w e.
Proof.
  revert e. induction w as [|c w IH]; intros e.
  - rewrite inserts_nil, list_elem_of_fmap. split.
    + intros (a & -> & Ha). by exists [], a, [].
    + intros (L & a & R & Hw & Ha & ->).
      symmetry in Hw. apply app_eq_nil in Hw as [-> ->]. by exists a.
  - rewrite inserts_cons, elem_of_app, !list_elem_of_fmap. split.
    + intros [(a & -> & Ha)|(e' & -> & (L & x & R & -> & Hx & ->)%IH)].
      * by exists [], a, (c :: w).
      * by exists (c :: L), x, R.
    + intros ([|y L] & x & R & Hw & Hx & ->); simplify_eq/=.
      * left. by exists x.
      * right. exists (L ++ x :: R). split; [done|].
        apply IH. by exists L, x, R.
Qed.

Lemma elem_of_edits1 w e :
  e ∈ edits1 w ↔
    deletion w e ∨ transposition w e ∨ replacement w e ∨ insertion w e.
Proof.
  unfold edits1. rewrite elem_of_list_to_set, !elem_of_app.
  by rewrite elem_of_deletes, elem_of_transposes, elem_of_replaces,
    elem_of_inserts.
Qed.

(** ** The contract of [edits1] *)

(** C3. For a word of length [n] and the alphabet of length [A], [edits1]
    is the set of the strings of four lists: [n] deletions, [n - 1]
    transpositions (none below two characters), [n * A] replacements and
    [(n + 1) * A] insertions, each list holding exactly the strings its
    name says; so it has at most [n + (n - 1) + n * A + (n + 1) * A]
    elements, and for the empty word it is the one-symbol strings of the
    alphabet, the other three lists being empty.  [A] is the length of the
    alphabet string as the comprehensions iterate it, 54. *)
Theorem edits1_contract (word : str) :
  let n := length word in
  let A := length TELUGU_ALPHABET in
  edits1 word
    = list_to_set (deletes word ++ transposes word ++ replaces word ++ inserts word)
  ∧ (length (deletes word) = n ∧ ∀ e, e ∈ deletes word ↔ deletion word e)
  ∧ (length (transposes word) = n - 1
     ∧ ∀ e, e ∈ transposes word ↔ transposition word e)
  ∧ (length (replaces word) = n * A
     ∧ ∀ e, e ∈ replaces word ↔ replacement word e)
  ∧ (length (inserts word) = (n + 1) * A
     ∧ ∀ e, e ∈ inserts word ↔ insertion word e)
  ∧ size (edits1 word) ≤ n + (n - 1) + n * A + (n + 1) * A
  ∧ (deletes [] = [] ∧ transposes [] = [] ∧ replaces [] = []
     ∧ edits1 [] = list_to_set ((λ c, [c]) <$> TELUGU_ALPHABET))
  ∧ A = 54.
Proof.
  intros n A. subst n A.
  split; [done|].
  split; [split; [apply length_deletes | apply elem_of_deletes]|].
  split; [split; [apply length_transposes | apply elem_of_transposes]|].
  split; [split; [apply length_replaces | apply elem_of_replaces]|].
  split; [split; [apply length_inserts | apply elem_of_inserts]|].
  split; [|done].
  unfold edits1. etrans; [apply size_list_to_set_le|].
  rewrite !length_app, length_deletes, length_transposes, length_replaces,
    length_inserts.
  lia.
Qed.

(** ** A word is among its own replacements *)

Lemma replacement_self (word : str) c :
  c ∈ word → c ∈ TELUGU_ALPHABET → replacement word word.
Proof.
  intros (L & R & ->)%list_elem_of_split Hc. by exists L, c, c, R.
Qed.

Lemma edits1_self (word : str) c :
  c ∈ word → c ∈ TELUGU_ALPHABET → word ∈ edits1 word.
Proof.
  intros Hw Hc. apply elem_of_edits1. right; right; left.
  by apply (replacement_self word c).
Qed.

(** The length of an edit is within one of the length of the word. *)
Lemma edits1_length w e :
  e ∈ edits1 w → length w - 1 ≤ length e ≤ length w + 1.
Proof.
  intros [(L & a & R & -> & ->)|[(L & a & b & R & -> & ->)|
    [(L & a & c & R & -> & _ & ->)|(L & c & R & -> & _ & ->)]]]%elem_of_edits1;
    rewrite !length_app; cbn [length]; lia.
Qed.

(** ** The stable sort *)

Section Sorting.

Context {A : Type} (key : A → Z).

Lemma insert_reverse_perm x l : insert_reverse key x l ≡ₚ x :: l.
Proof.
  induction l as [|y l IH]; [done|]. cbn.
  case_match; [|done]. rewrite IH. apply Permutation_swap.
Qed.

Lemma sorted_reverse_perm l : sorted_reverse key l ≡ₚ l.
Proof.
  induction l as [|x l IH]; [done|]. cbn.
  by rewrite insert_reverse_perm, IH.
Qed.

Lemma insert_reverse_sorted x l :
  StronglySorted (ge_key key) l →
  StronglySorted (ge_key key) (insert_reverse key x l).
Proof.
  induction 1 as [|y l Hl IH Hy]; cbn.
  - repeat constructor.
  - destruct (Z.ltb_spec (key x) (key y)) as [Hlt|Hge].
    + constructor; [done|].
      rewrite insert_reverse_perm. constructor; [|done].
      unfold ge_key. lia.
    + constructor; [by constructor|].
      constructor; [done|].
      eapply Forall_impl; [exact Hy|]. unfold ge_key. intros z ?. lia.
Qed.

Lemma sorted_reverse_sorted l :
  StronglySorted (ge_key key) (sorted_reverse key l).
Proof.
  induction l as [|x l IH]; [constructor|].
  by apply insert_reverse_sorted.
Qed.

(** Stability: the elements of any one key come out in the order they
    went in. *)
Lemma insert_reverse_stable k x l :
  filter (λ a, key a = k) (insert_reverse key x l)
  = filter (λ a, key a = k) (x :: l).
Proof.
  induction l as [|y l IH]; [done|]. cbn [insert_reverse].
  destruct (Z.ltb_spec (key x) (key y)) as [Hlt|Hge]; [|done].
  rewrite (filter_cons _ y), IH, !filter_cons.
  repeat case_decide; try done; lia.
Qed.

Lemma sorted_reverse_stable k l :
  filter (λ a, key a = k) (sorted_reverse key l) = filter (λ a, key a = k) l.
Proof.
  induction l as [|x l IH]; [done|]. cbn [sorted_reverse foldr].
  rewrite insert_reverse_stable, !filter_cons.
  fold (sorted_reverse key l). by rewrite IH.
Qed.

Lemma sorted_reverse_nil_inv l : sorted_reverse key l = [] → l = [].
Proof.
  intros Hl. apply Permutation_nil_r. rewrite <- Hl.
  by rewrite sorted_reverse_perm.
Qed.

End Sorting.

(** ** Sets of known words *)

Section Candidates.

Context {SO : SetOrder}.
Implicit Types (WORDS : gmap str Z) (word : str).

Lemma elem_of_set_iter (X : gset str) x : x ∈ set_iter X ↔ x ∈ X.
Proof. by rewrite set_iter_perm, elem_of_elements. Qed.

Lemma NoDup_set_iter (X : gset str) : NoDup (set_iter X).
Proof. rewrite set_iter_perm. apply NoDup_elements. Qed.

Lemma set_iter_nil (X : gset str) : set_iter X = [] ↔ X = ∅.
Proof.
  split.
  - intros HX. apply leibniz_equiv, elem_of_equiv_empty. intros x Hx.
    apply elem_of_set_iter in Hx. rewrite HX in Hx. by apply elem_of_nil in Hx.
  - intros ->. apply Permutation_nil_r. rewrite set_iter_perm.
    by rewrite elements_empty.
Qed.

Lemma elem_of_known WORDS (words : list str) x :
  x ∈ known WORDS words ↔ x ∈ words ∧ is_Some (WORDS !! x).
Proof.
  unfold known. rewrite elem_of_list_to_set, list_elem_of_filter. tauto.
Qed.

Lemma elem_of_edits2 word x :
  x ∈ edits2 word ↔ ∃ e1, e1 ∈ edits1 word ∧ x ∈ edits1 e1.
Proof.
  unfold edits2. rewrite list_elem_of_bind.
  split; intros (e1 & H1 & H2); exists e1;
    by rewrite ?elem_of_set_iter in *.
Qed.

Lemma elem_of_tier01 WORDS word x :
  x ∈ tier01 WORDS word ↔ is_Some (WORDS !! x) ∧ (x = word ∨ x ∈ edits1 word).
Proof.
  unfold tier01.
  rewrite elem_of_union, !elem_of_known, list_elem_of_singleton,
    elem_of_set_iter.
  tauto.
Qed.

Lemma elem_of_candidate_set WORDS word x :
  x ∈ candidate_set WORDS word ↔
    x ∈ tier01 WORDS word
    ∨ (tier01 WORDS word = ∅ ∧ WORDS !! word = None
       ∧ is_Some (WORDS !! x) ∧ x ∈ edits2 word).
Proof.
  unfold candidate_set. cbv zeta.
  destruct (bool_decide (tier01 WORDS word = ∅)) eqn:Ht;
    destruct (bool_decide (WORDS !! word = None)) eqn:Hw; cbn [andb];
    [apply bool_decide_eq_true in Ht|apply bool_decide_eq_true in Ht
    |apply bool_decide_eq_false in Ht|apply bool_decide_eq_false in Ht];
    [apply bool_decide_eq_true in Hw|apply bool_decide_eq_false in Hw
    |apply bool_decide_eq_true in Hw|apply bool_decide_eq_false in Hw];
    rewrite ?elem_of_union, ?elem_of_known, ?elem_of_set_iter,
      ?elem_of_list_to_set; tauto.
Qed.

Lemma known_word_in_tier01 WORDS word :
  is_Some (WORDS !! word) → word ∈ tier01 WORDS word.
Proof. intros. apply elem_of_tier01. auto. Qed.

(** The guard of line 60 fails as soon as the first two tiers found a
    candidate; its second test then never decides. *)
Lemma candidate_set_tier01 WORDS word :
  tier01 WORDS word ≠ ∅ → candidate_set WORDS word = tier01 WORDS word.
Proof.
  intros Hne. unfold candidate_set. cbv zeta.
  by rewrite (bool_decide_eq_false_2 _ Hne).
Qed.

Lemma length_rank WORDS (X : gset str) : length (rank WORDS X) = size X.
Proof.
  unfold rank. rewrite sorted_reverse_perm, length_fmap, set_iter_perm. done.
Qed.

Lemma rank_nil_inv WORDS (X : gset str) : rank WORDS X = [] → X = ∅.
Proof.
  intros HX%sorted_reverse_nil_inv%fmap_nil_inv. by apply set_iter_nil.
Qed.

Lemma elem_of_rank WORDS (X : gset str) c f :
  (c, f) ∈ rank WORDS X ↔ c ∈ X ∧ f = default 0%Z (WORDS !! c).
Proof.
  unfold rank. rewrite sorted_reverse_perm, list_elem_of_fmap.
  split.
  - intros (x & [= -> ->] & Hx%elem_of_set_iter). done.
  - intros [Hc ->]. exists c. by rewrite elem_of_set_iter.
Qed.

Lemma no_candidates WORDS word :
  WORDS !! word = None →
  (∀ e, e ∈ edits1 word → WORDS !! e = None) →
  (∀ e, e ∈ edits2 word → WORDS !! e = None) →
  candidate_set WORDS word = ∅.
Proof.
  intros Hw H1 H2. apply leibniz_equiv, elem_of_equiv_empty. intros x.
  rewrite elem_of_candidate_set, elem_of_tier01.
  intros [[[v Hv] [->|Hx]]|(_ & _ & [v Hv] & Hx)].
  - by rewrite Hw in Hv.
  - by rewrite (H1 x Hx) in Hv.
  - by rewrite (H2 x Hx) in Hv.
Qed.

Lemma get_candidates_pass_through WORDS word :
  candidate_set WORDS word = ∅ → get_candidates WORDS word = [(word, 0%Z)].
Proof.
  intros HX. unfold get_candidates. cbv zeta.
  by rewrite HX, bool_decide_eq_true_2.
Qed.

Lemma get_candidates_nonempty WORDS word : get_candidates WORDS word ≠ [].
Proof.
  unfold get_candidates. cbv zeta. case_bool_decide as HX; [done|].
  by intros ?%rank_nil_inv.
Qed.

End Candidates.

(** ** The candidate set does not depend on the iteration order *)

Lemma tier01_order_irrelevant (SO1 SO2 : SetOrder) (WORDS : gmap str Z) word :
  tier01 (SO:=SO1) WORDS word = tier01 (SO:=SO2) WORDS word.
Proof.
  apply leibniz_equiv. intros x. by rewrite !elem_of_tier01.
Qed.

Lemma candidate_set_order_irrelevant (SO1 SO2 : SetOrder)
    (WORDS : gmap str Z) word :
  candidate_set (SO:=SO1) WORDS word = candidate_set (SO:=SO2) WORDS word.
Proof.
  apply leibniz_equiv. intros x.
  rewrite !elem_of_candidate_set, !elem_of_edits2.
  by rewrite (tier01_order_irrelevant SO1 SO2).
Qed.

(** ** The sample models *)

(** The candidate sets of the sample models are found by membership, with
    no enumeration of [edits1]. *)
Lemma two_key_known (a b : str) (fa fb : Z) (x : str) :
  is_Some (({[ a := fa; b := fb ]} : gmap str Z) !! x) ↔ x = a ∨ x = b.
Proof.
  rewrite lookup_insert_is_Some', lookup_singleton_is_Some.
  intuition congruence.
Qed.

Lemma candidate_set_neighbours (SO : SetOrder) (a b : str) (fa fb : Z) :
  a ∈ edits1 b →
  candidate_set {[ a := fa; b := fb ]} b = {[ a; b ]}.
Proof.
  intros Hab.
  assert (tier01 {[ a := fa; b := fb ]} b = {[ a; b ]}) as Ht.
  { apply leibniz_equiv. intros x.
    rewrite elem_of_tier01, two_key_known, elem_of_union, !elem_of_singleton.
    split; [tauto|]. intros [-> | ->]; auto. }
  rewrite candidate_set_tier01; [done|]. rewrite Ht.
  apply (non_empty_inhabited_L a), elem_of_union_l, elem_of_singleton_2. done.
Qed.

Lemma maha_edit_of_mahana : maha ∈ edits1 mahana.
Proof. apply elem_of_edits1. left. by exists maha, 0x0C28%N, []. Qed.

Lemma desam_no_edit_of_mahana : desam ∉ edits1 mahana.
Proof.
  intros [(L & a & R & Hw & He)|[(L & a & b & R & Hw & He)|
    [(L & a & c & R & Hw & _ & He)|(L & c & R & Hw & _ & He)]]]%elem_of_edits1;
    unfold desam, mahana in *;
    repeat (destruct L as [|? L]; simplify_eq/=).
Qed.

Lemma skewed_candidates (SO : SetOrder) :
  candidate_set skewed_model mahana = {[ maha; mahana ]}.
Proof. apply candidate_set_neighbours, maha_edit_of_mahana. Qed.

Lemma tied_candidates (SO : SetOrder) :
  candidate_set tied_model mahana = {[ maha; mahana ]}.
Proof. apply candidate_set_neighbours, maha_edit_of_mahana. Qed.

Lemma pair_nonempty (a b : str) : ({[ a; b ]} : gset str) ≠ ∅.
Proof.
  apply (non_empty_inhabited_L a), elem_of_union_l, elem_of_singleton_2. done.
Qed.

Lemma elements_pair (a b : str) :
  a ≠ b →
  elements ({[ a; b ]} : gset str) = [a; b]
  ∨ elements ({[ a; b ]} : gset str) = [b; a].
Proof.
  intros Hab. apply Permutation_length_2_inv. symmetry.
  rewrite elements_union_singleton
    by (by intros ?%elem_of_singleton).
  by rewrite elements_singleton.
Qed.

Lemma rank_pair (SO : SetOrder) (WORDS : gmap str Z) (a b : str) fa fb :
  a ≠ b →
  WORDS !! a = Some fa → WORDS !! b = Some fb → (fb < fa)%Z →
  rank WORDS {[ a; b ]} = [(a, fa); (b, fb)].
Proof.
  intros Hab Ha Hb Hlt. unfold rank.
  assert (set_iter ({[ a; b ]} : gset str) ≡ₚ [a; b]) as Hp.
  { rewrite set_iter_perm, elements_union_singleton
      by (by intros ?%elem_of_singleton).
    by rewrite elements_singleton. }
  symmetry in Hp. apply Permutation_length_2_inv in Hp as [-> | ->];
    cbn; rewrite Ha, Hb; cbn.
  - by destruct (Z.ltb_spec fa fb); [lia|].
  - by destruct (Z.ltb_spec fb fa); [|lia].
Qed.

Lemma rank_singleton (SO : SetOrder) (WORDS : gmap str Z) (a : str) :
  rank WORDS {[ a ]} = [(a, default 0%Z (WORDS !! a))].
Proof.
  unfold rank.
  assert (set_iter ({[ a ]} : gset str) ≡ₚ [a]) as Hp
    by (by rewrite set_iter_perm, elements_singleton).
  by apply Permutation_singleton_r in Hp as ->.
Qed.

(** ** Tiers *)

Lemma correct_word_Ok `{SO : SetOrder} (WORDS : gmap str Z) (word : str) :
  ∃ best f rest,
    get_candidates WORDS word = (best, f) :: rest
    ∧ correct_word WORDS word = Ok (best, (best, f) :: rest).
Proof.
  unfold correct_word. cbv zeta.
  pose proof (get_candidates_nonempty WORDS word) as Hne.
  destruct (get_candidates WORDS word) as [|[best f] l]; [done|].
  by exists best, f, l.
Qed.

(** C4. The candidate set is the known part of [edits2 word] when the
    first two tiers are empty and the word is unknown, and the first two
    tiers otherwise: the two-edit tier enters under that guard only.  When
    the first two tiers hold a candidate, the ranked list is the ranking of
    those two tiers: each of its words is known and is the word itself or
    one of [edits1 word]. *)
Theorem tier_precedence `{SO : SetOrder} (WORDS : gmap str Z) (word : str) :
  candidate_set WORDS word
    = (if bool_decide (tier01 WORDS word = ∅ ∧ WORDS !! word = None)
       then known WORDS (set_iter (list_to_set (edits2 word)))
       else tier01 WORDS word)
  ∧ (candidate_set WORDS word ≠ tier01 WORDS word →
     tier01 WORDS word = ∅ ∧ WORDS !! word = None)
  ∧ (tier01 WORDS word ≠ ∅ →
       candidate_set WORDS word = tier01 WORDS word
       ∧ get_candidates WORDS word = rank WORDS (tier01 WORDS word)
       ∧ ∀ c f, (c, f) ∈ get_candidates WORDS word →
           is_Some (WORDS !! c) ∧ (c = word ∨ c ∈ edits1 word)).
Proof.
  split; [|split].
  - unfold candidate_set. cbv zeta.
    destruct (decide (tier01 WORDS word = ∅)) as [Ht|Ht];
      destruct (decide (WORDS !! word = None)) as [Hw|Hw];
      rewrite ?(bool_decide_eq_true_2 _ Ht), ?(bool_decide_eq_false_2 _ Ht),
        ?(bool_decide_eq_true_2 _ Hw), ?(bool_decide_eq_false_2 _ Hw);
      cbn [andb].
    + rewrite bool_decide_eq_true_2 by done. rewrite Ht. apply (left_id_L ∅ _).
    + by rewrite bool_decide_eq_false_2 by tauto.
    + by rewrite bool_decide_eq_false_2 by tauto.
    + by rewrite bool_decide_eq_false_2 by tauto.
  - unfold candidate_set. cbv zeta. intros Hne.
    destruct (bool_decide (tier01 WORDS word = ∅)) eqn:Ht; [|done].
    destruct (bool_decide (WORDS !! word = None)) eqn:Hw; [|done].
    by apply bool_decide_eq_true in Ht, Hw.
  - intros Hne.
    assert (get_candidates WORDS word = rank WORDS (tier01 WORDS word)) as Hg.
    { unfold get_candidates. cbv zeta. rewrite candidate_set_tier01 by done.
      by rewrite (bool_decide_eq_false_2 _ Hne). }
    split; [by apply candidate_set_tier01|]. split; [done|].
    intros c f. rewrite Hg, elem_of_rank, elem_of_tier01. tauto.
Qed.

(** Tier precedence at work: [mahana] in a model that knows it and [maha]. *)
Lemma tier_precedence_witness :
  tier01 (SO:=elements_order) skewed_model mahana ≠ ∅
  ∧ ∀ c f, (c, f) ∈ get_candidates (SO:=elements_order) skewed_model mahana →
      is_Some (skewed_model !! c) ∧ (c = mahana ∨ c ∈ edits1 mahana).
Proof.
  assert (tier01 (SO:=elements_order) skewed_model mahana ≠ ∅) as Hne
    by (apply (non_empty_inhabited_L mahana), known_word_in_tier01,
          two_key_known; by right).
  split; [exact Hne|].
  exact (proj2 (proj2 (proj2 (proj2
    (tier_precedence (SO:=elements_order) skewed_model mahana)) Hne))).
Defined.

(** C6. A word that is unknown, with no known string in [edits1] and none
    in [edits2], gets the one-element list of itself with frequency 0, and
    [correct_word] returns it as its own correction. *)
Theorem pass_through_fallback `{SO : SetOrder} (WORDS : gmap str Z)
    (word : str) :
  WORDS !! word = None →
  (∀ e, e ∈ edits1 word → WORDS !! e = None) →
  (∀ e, e ∈ edits2 word → WORDS !! e = None) →
  get_candidates WORDS word = [(word, 0%Z)]
  ∧ correct_word WORDS word = Ok (word, [(word, 0%Z)]).
Proof.
  intros Hw H1 H2.
  assert (get_candidates WORDS word = [(word, 0%Z)]) as Hg
    by (by apply get_candidates_pass_through, no_candidates).
  split; [done|]. unfold correct_word. cbv zeta. by rewrite Hg.
Qed.

(** The fallback at work: [maha] against a model whose only word is eight
    characters long, out of reach of two edits. *)
Lemma pass_through_fallback_witness :
  get_candidates (SO:=elements_order) far_model maha = [(maha, 0%Z)]
  ∧ correct_word (SO:=elements_order) far_model maha = Ok (maha, [(maha, 0%Z)]).
Proof.
  apply (pass_through_fallback (SO:=elements_order) far_model maha).
  - by apply lookup_singleton_ne.
  - intros e He%edits1_length.
    apply lookup_singleton_ne. intros <-. cbn in He. lia.
  - intros e (e1 & H1%edits1_length & He%edits1_length)%elem_of_edits2.
    apply lookup_singleton_ne. intros <-. cbn in H1, He. lia.
Defined.

(** ** Two words at work *)

(** The worked scenario: with [maha] and [desam] known, the unknown
    [mahana] has [maha] among its edits, and is corrected to it. *)
Lemma scenario_mahana (SO : SetOrder) :
  maha ∈ edits1 mahana
  ∧ get_candidates scenario_model mahana = [(maha, 50%Z)]
  ∧ correct_word scenario_model mahana = Ok (maha, [(maha, 50%Z)]).
Proof.
  assert (get_candidates scenario_model mahana = [(maha, 50%Z)]) as Hg.
  { unfold get_candidates. cbv zeta.
    assert (tier01 scenario_model mahana = {[ maha ]}) as Ht.
    { apply leibniz_equiv. intros x.
      rewrite elem_of_tier01, elem_of_singleton.
      unfold scenario_model. rewrite two_key_known. split.
      - intros [[-> | ->] Hx]; [reflexivity|].
        destruct Hx as [Hx|Hx]; [discriminate Hx|].
        destruct (desam_no_edit_of_mahana Hx).
      - intros ->. split; [left; reflexivity|].
        right. apply maha_edit_of_mahana. }
    assert (({[ maha ]} : gset str) ≠ ∅) as Hne
      by (apply (non_empty_inhabited_L maha), elem_of_singleton_2; done).
    rewrite candidate_set_tier01 by (by rewrite Ht). rewrite Ht.
    rewrite (bool_decide_eq_false_2 _ Hne), rank_singleton.
    unfold scenario_model. by rewrite lookup_insert_eq. }
  split; [|split; [done|]].
  - apply maha_edit_of_mahana.
  - unfold correct_word. cbv zeta. by rewrite Hg.
Qed.

(** C1, at the failing input: [mahana] is a key of the model, and
    [correct_word] returns its more frequent neighbour [maha] as the best
    word, whatever the iteration order of the candidate set. *)
Theorem known_word_replaced (SO : SetOrder) :
  is_Some (skewed_model !! mahana)
  ∧ correct_word skewed_model mahana
    = Ok (maha, [(maha, 50%Z); (mahana, 3%Z)]).
Proof.
  split; [apply two_key_known; by right|].
  unfold correct_word, get_candidates. cbv zeta.
  rewrite skewed_candidates.
  rewrite (bool_decide_eq_false_2 _ (pair_nonempty maha mahana)).
  rewrite (rank_pair SO skewed_model maha mahana 50 3); [done|done| | |done].
  - apply lookup_insert_eq.
  - unfold skewed_model. rewrite lookup_insert_ne by done.
    apply lookup_singleton_eq.
Qed.

(** ** Order of the ranked list *)

Lemma filter_key_fmap {A} (g : A → A * Z) (l : list A) (k : Z) :
  filter (λ p, p.2 = k) (g <$> l) = g <$> filter (λ c, (g c).2 = k) l.
Proof.
  induction l as [|x l IH]; [done|].
  rewrite fmap_cons, !filter_cons, IH. by case_decide.
Qed.

Lemma get_candidates_sorted `{SO : SetOrder} (WORDS : gmap str Z) (word : str) :
  StronglySorted (ge_key snd) (get_candidates WORDS word).
Proof.
  unfold get_candidates. cbv zeta. case_bool_decide.
  - repeat constructor.
  - apply sorted_reverse_sorted.
Qed.

(** The pairs of the ranked list are the same under any two iteration
    orders, and so is the list when the candidate set is iterated in the
    same order. *)
Lemma get_candidates_perm (SO1 SO2 : SetOrder) (WORDS : gmap str Z)
    (word : str) :
  @get_candidates SO1 WORDS word ≡ₚ @get_candidates SO2 WORDS word.
Proof.
  unfold get_candidates. cbv zeta.
  rewrite (candidate_set_order_irrelevant SO1 SO2).
  case_bool_decide; [done|].
  unfold rank. rewrite !sorted_reverse_perm.
  apply fmap_Permutation.
  by rewrite (@set_iter_perm SO1), (@set_iter_perm SO2).
Qed.

Lemma get_candidates_same_iteration (SO1 SO2 : SetOrder)
    (WORDS : gmap str Z) (word : str) :
  @set_iter SO1 (@candidate_set SO1 WORDS word)
  = @set_iter SO2 (@candidate_set SO2 WORDS word) →
  @get_candidates SO1 WORDS word = @get_candidates SO2 WORDS word.
Proof.
  intros Hiter. unfold get_candidates. cbv zeta. unfold rank.
  rewrite Hiter. by rewrite (candidate_set_order_irrelevant SO1 SO2).
Qed.

(** C5, as the code has it. The ranked list is sorted by decreasing
    frequency; under any other iteration order it holds the same pairs,
    and it is the same list when the candidate set is iterated in the same
    order; among candidates of one frequency the order is the one in which
    the candidate set is iterated, since the sort is stable and has no
    second key. *)
Theorem ranking_order (SO : SetOrder) (WORDS : gmap str Z) (word : str) :
  StronglySorted (ge_key snd) (@get_candidates SO WORDS word)
  ∧ (∀ SO' : SetOrder,
       @get_candidates SO' WORDS word ≡ₚ @get_candidates SO WORDS word)
  ∧ (∀ SO' : SetOrder,
       @set_iter SO' (@candidate_set SO' WORDS word)
       = @set_iter SO (@candidate_set SO WORDS word) →
       @get_candidates SO' WORDS word = @get_candidates SO WORDS word)
  ∧ (@candidate_set SO WORDS word ≠ ∅ →
     ∀ f : Z,
       (filter (λ p, p.2 = f) (@get_candidates SO WORDS word)).*1
       = filter (λ c, default 0%Z (WORDS !! c) = f)
           (@set_iter SO (@candidate_set SO WORDS word))).
Proof.
  split; [|split; [|split]].
  - unfold get_candidates. cbv zeta. case_bool_decide.
    + repeat constructor.
    + apply sorted_reverse_sorted.
  - intros SO'. apply get_candidates_perm.
  - intros SO'. apply get_candidates_same_iteration.
  - intros Hne f. unfold get_candidates. cbv zeta.
    rewrite (bool_decide_eq_false_2 _ Hne).
    unfold rank. rewrite sorted_reverse_stable, filter_key_fmap.
    rewrite <- list_fmap_compose. cbn. apply list_fmap_id.
Qed.

(** The order among ties at work: two candidates of frequency 50. *)
Lemma ranking_order_witness :
  candidate_set (SO:=elements_order) tied_model mahana ≠ ∅
  ∧ (filter (λ p, p.2 = 50%Z)
       (get_candidates (SO:=elements_order) tied_model mahana)).*1
    = filter (λ c, default 0%Z (tied_model !! c) = 50%Z)
        (set_iter (SetOrder:=elements_order)
           (candidate_set (SO:=elements_order) tied_model mahana)).
Proof.
  assert (candidate_set (SO:=elements_order) tied_model mahana ≠ ∅) as Hne
    by (rewrite tied_candidates; apply pair_nonempty).
  split; [exact Hne|].
  exact (proj2 (proj2 (proj2 (ranking_order elements_order tied_model mahana)))
           Hne 50%Z).
Defined.

Lemma sorted_counts (l : list (str * Z)) :
  StronglySorted (ge_key snd) l → StronglySorted (λ a b : Z, (b ≤ a)%Z) l.*2.
Proof.
  induction 1 as [|p l _ IH Hp]; [constructor|].
  cbn. constructor; [done|]. by apply Forall_fmap.
Qed.

Lemma NoDup_fmap_elem {A B} (f : A → B) (l : list A) (x y : A) :
  NoDup (f <$> l) → x ∈ l → y ∈ l → f x = f y → x = y.
Proof.
  induction l as [|a l IH]; [by intros _ ?%elem_of_nil|].
  rewrite fmap_cons, NoDup_cons, !elem_of_cons.
  intros [Ha Hl] [->|Hx] [->|Hy] Hf; [done| | |by apply IH].
  - destruct Ha. rewrite Hf. by apply list_elem_of_fmap_2.
  - destruct Ha. rewrite <- Hf. by apply list_elem_of_fmap_2.
Qed.

(** No set of [get_candidates] depends on an iteration order: neither the
    first two tiers nor the candidate set nor the words of the ranked list.
    Two iteration orders give ranked lists with the same pairs and, place
    by place, the same counts; a candidate whose count no other candidate
    has stands at the same place in both, and the two lists are one when no
    two candidates have the same count.  The iteration order decides the
    place of equally frequent candidates and nothing else. *)
Theorem candidates_independent_of_order (SO1 SO2 : SetOrder)
    (WORDS : gmap str Z) (word : str) :
  @tier01 SO1 WORDS word = @tier01 SO2 WORDS word
  ∧ @candidate_set SO1 WORDS word = @candidate_set SO2 WORDS word
  ∧ list_to_set (C:=gset str) (@get_candidates SO1 WORDS word).*1
    = list_to_set (@get_candidates SO2 WORDS word).*1
  ∧ @get_candidates SO1 WORDS word ≡ₚ @get_candidates SO2 WORDS word
  ∧ (@get_candidates SO1 WORDS word).*2 = (@get_candidates SO2 WORDS word).*2
  ∧ (∀ (i : nat) (c : str) (f : Z),
       @get_candidates SO1 WORDS word !! i = Some (c, f) →
       (∀ c', (c', f) ∈ @get_candidates SO1 WORDS word → c' = c) →
       @get_candidates SO2 WORDS word !! i = Some (c, f))
  ∧ (NoDup (@get_candidates SO1 WORDS word).*2 →
     @get_candidates SO1 WORDS word = @get_candidates SO2 WORDS word).
Proof.
  pose proof (get_candidates_perm SO1 SO2 WORDS word) as Hperm.
  pose proof (@get_candidates_sorted SO1 WORDS word) as Hs1.
  pose proof (@get_candidates_sorted SO2 WORDS word) as Hs2.
  assert ((@get_candidates SO1 WORDS word).*2
          = (@get_candidates SO2 WORDS word).*2) as Hcounts.
  { apply (StronglySorted_unique_strong (λ a b : Z, (b ≤ a)%Z)).
    - intros. lia.
    - by apply sorted_counts.
    - by apply sorted_counts.
    - by rewrite Hperm. }
  split; [apply tier01_order_irrelevant|].
  split; [apply candidate_set_order_irrelevant|].
  split.
  { apply leibniz_equiv. intros x. rewrite !elem_of_list_to_set.
    by rewrite Hperm. }
  split; [done|]. split; [done|]. split.
  - intros i c f Hi Huniq.
    assert ((@get_candidates SO2 WORDS word).*2 !! i = Some f) as Hf
      by (by rewrite <- Hcounts, list_lookup_fmap, Hi).
    rewrite list_lookup_fmap in Hf.
    destruct (@get_candidates SO2 WORDS word !! i) as [[c2 f2]|] eqn:Hi2;
      [|discriminate Hf].
    cbn in Hf. injection Hf as ->.
    apply list_elem_of_lookup_2 in Hi2 as Hin. rewrite <- Hperm in Hin.
    by rewrite (Huniq c2 Hin).
  - intros Hnd. apply (StronglySorted_unique_strong (ge_key snd)); try done.
    intros x1 x2 Hx1 Hx2 H12 H21. unfold ge_key in *.
    apply (NoDup_fmap_elem snd (@get_candidates SO1 WORDS word));
      [done|done|by rewrite Hperm|lia].
Qed.

Lemma skewed_ranking (SO : SetOrder) :
  @get_candidates SO skewed_model mahana = [(maha, 50%Z); (mahana, 3%Z)].
Proof.
  unfold get_candidates. cbv zeta.
  rewrite skewed_candidates.
  rewrite (bool_decide_eq_false_2 _ (pair_nonempty maha mahana)).
  apply rank_pair; [done| | |done].
  - apply lookup_insert_eq.
  - unfold skewed_model. rewrite lookup_insert_ne by done.
    apply lookup_singleton_eq.
Qed.

Lemma skewed_counts_distinct (SO : SetOrder) :
  NoDup (@get_candidates SO skewed_model mahana).*2.
Proof.
  rewrite skewed_ranking. cbn. apply NoDup_cons. split.
  - intros H%list_elem_of_singleton. discriminate H.
  - apply NoDup_singleton.
Qed.

Lemma candidates_independent_of_order_witness :
  NoDup (@get_candidates elements_order skewed_model mahana).*2
  ∧ @get_candidates elements_order skewed_model mahana
    = @get_candidates reverse_order skewed_model mahana.
Proof.
  split; [apply skewed_counts_distinct|].
  apply (candidates_independent_of_order elements_order reverse_order
           skewed_model mahana).
  apply skewed_counts_distinct.
Defined.

(** C5, as stated, fails: with two candidates of one frequency, two
    iteration orders of the same candidate set give two different lists. *)
Lemma ranking_depends_on_iteration_order :
  get_candidates (SO:=elements_order) tied_model mahana
  ≠ get_candidates (SO:=reverse_order) tied_model mahana.
Proof.
  unfold get_candidates. cbv zeta. rewrite !tied_candidates.
  rewrite (bool_decide_eq_false_2 _ (pair_nonempty maha mahana)).
  unfold rank. cbn [set_iter elements_order reverse_order].
  assert (tied_model !! maha = Some 50%Z) as Ha by apply lookup_insert_eq.
  assert (tied_model !! mahana = Some 50%Z) as Hb.
  { unfold tied_model. rewrite lookup_insert_ne by done.
    apply lookup_singleton_eq. }
  destruct (elements_pair maha mahana) as [-> | ->]; [done|..];
    cbn [reverse rev_append fmap list_fmap sorted_reverse foldr insert_reverse snd];
    rewrite Ha, Hb; cbn; intros [=].
Qed.

(** ** A word among its own edits *)

(** C10. A word with at least one character of the alphabet is one of its
    own replacements, hence a member of [edits1] of itself: membership in
    [edits1 word] does not exclude the word itself.  If the word is known,
    both [known [word]] and [known (edits1 word)] hold it. *)
Theorem edits1_contains_word (SO : SetOrder) (WORDS : gmap str Z) (word : str) :
  (∃ c, c ∈ word ∧ c ∈ TELUGU_ALPHABET) →
  replacement word word
  ∧ word ∈ edits1 word
  ∧ ¬ (∀ e, e ∈ edits1 word → e ≠ word)
  ∧ (is_Some (WORDS !! word) →
       word ∈ known WORDS [word]
       ∧ word ∈ known WORDS (set_iter (edits1 word))).
Proof.
  intros (c & Hw & Hc).
  pose proof (edits1_self word c Hw Hc) as Hself.
  split; [by apply (replacement_self word c)|].
  split; [done|].
  split; [intros Hno; by apply (Hno word)|].
  intros Hknown. rewrite !elem_of_known, elem_of_set_iter.
  by rewrite list_elem_of_singleton.
Qed.

Lemma edits1_contains_word_witness :
  (∃ c, c ∈ mahana ∧ c ∈ TELUGU_ALPHABET)
  ∧ mahana ∈ edits1 mahana
  ∧ mahana ∈ known skewed_model [mahana]
  ∧ mahana ∈ known skewed_model (set_iter (SetOrder:=elements_order) (edits1 mahana)).
Proof.
  assert (∃ c, c ∈ mahana ∧ c ∈ TELUGU_ALPHABET) as Hc.
  { exists 0x0C2E%N. split; [by left|].
    by apply (list_elem_of_lookup_2 _ 40). }
  split; [exact Hc|].
  destruct (edits1_contains_word elements_order skewed_model mahana Hc)
    as (_ & Hself & _ & Hk).
  split; [exact Hself|].
  apply Hk, two_key_known. by right.
Defined.

(** ** The loop of [correct_text] *)

Section Text.

Context {SO : SetOrder}.
Variable uni_isalnum : codepoint → bool.
Implicit Types (WORDS : gmap str Z) (self : SpellChecker) (text part : str).

Lemma correct_word_best WORDS word :
  correct_word WORDS word = Ok (best_word WORDS word, get_candidates WORDS word).
Proof.
  unfold best_word.
  destruct (correct_word_Ok WORDS word) as (b & f & rest & Hg & ->).
  by rewrite Hg.
Qed.

Lemma correct_part_spec corrected_parts self part :
  correct_part (corrected_parts, self) part
  = Ok (corrected_parts ++ [emitted (WORDS self) part],
        mkSpellChecker (model_path self) (WORDS self) (TOTAL_WORDS self)
          (source_document self)
          (recorded (WORDS self) (candidates_map self) part)).
Proof.
  unfold correct_part, emitted, recorded, misspelled.
  destruct (re_match_telugu part); cbn [andb]; [|by destruct self].
  rewrite correct_word_best. cbn.
  case_bool_decide as Hb; [done|].
  rewrite Hb. by destruct self.
Qed.

Lemma for_each_correct_part parts corrected_parts self :
  for_each correct_part parts (corrected_parts, self)
  = Ok (corrected_parts ++ (emitted (WORDS self) <$> parts),
        mkSpellChecker (model_path self) (WORDS self) (TOTAL_WORDS self)
          (source_document self)
          (foldl (recorded (WORDS self)) (candidates_map self) parts)).
Proof.
  revert corrected_parts self.
  induction parts as [|part parts IH]; intros corrected_parts self.
  - cbn. rewrite app_nil_r. by destruct self.
  - cbn [for_each]. rewrite correct_part_spec. cbn [mbind result_bind].
    rewrite IH. cbn. by rewrite <- app_assoc.
Qed.

Lemma lookup_recorded WORDS (cm : gmap str (list str)) parts w l :
  foldl (recorded WORDS) cm parts !! w = Some l ↔
    (w ∈ parts ∧ misspelled WORDS w = true
     ∧ l = (get_candidates WORDS w).*1)
    ∨ (¬ (w ∈ parts ∧ misspelled WORDS w = true) ∧ cm !! w = Some l).
Proof.
  revert cm. induction parts as [|part parts IH]; intros cm.
  - cbn. rewrite elem_of_nil. tauto.
  - cbn [foldl]. rewrite IH, elem_of_cons. unfold recorded.
    destruct (decide (w ∈ parts)) as [Hin|Hin];
      destruct (misspelled WORDS part) eqn:Hp;
      destruct (decide (w = part)) as [->|Hne];
      rewrite ?Hp, ?lookup_insert_eq, ?lookup_insert_ne by done;
      intuition congruence.
Qed.

Lemma correct_text_spec self text :
  correct_text uni_isalnum self text
  = let cmap := foldl (recorded (WORDS self)) ∅ (findall uni_isalnum text) in
    Ok ((concat (emitted (WORDS self) <$> findall uni_isalnum text), cmap),
        mkSpellChecker (model_path self) (WORDS self) (TOTAL_WORDS self)
          (Some text) cmap).
Proof.
  unfold correct_text. cbv zeta. by rewrite for_each_correct_part.
Qed.

(** C9. The call returns a map that has an entry for [w] exactly when [w]
    is a word part of the text whose best correction differs from it, the
    entry being the candidate words in ranked order; the checker is left
    with the text and this same map; what the checker held as document and
    map before the call has no part in the result, so a call after an
    earlier call returns what it returns without it. *)
Theorem correct_text_diagnostics self text :
  ∃ corrected cmap,
    correct_text uni_isalnum self text
    = Ok ((corrected, cmap),
          mkSpellChecker (model_path self) (WORDS self) (TOTAL_WORDS self)
            (Some text) cmap)
    ∧ (∀ w l, cmap !! w = Some l ↔
         w ∈ findall uni_isalnum text ∧ re_match_telugu w = true
         ∧ ∃ best ranked,
             correct_word (WORDS self) w = Ok (best, ranked)
             ∧ best ≠ w ∧ l = ranked.*1)
    ∧ (∀ doc cm,
         correct_text uni_isalnum
           (mkSpellChecker (model_path self) (WORDS self) (TOTAL_WORDS self)
              doc cm) text
         = correct_text uni_isalnum self text)
    ∧ (∀ earlier, ∃ r self1,
         correct_text uni_isalnum self earlier = Ok (r, self1)
         ∧ correct_text uni_isalnum self1 text
           = correct_text uni_isalnum self text).
Proof.
  eexists _, _. split; [apply correct_text_spec|].
  split; [|split; [done|]]; cycle 1.
  { intros earlier. eexists _, _. split; [apply correct_text_spec|]. done. }
  intros w l. rewrite lookup_recorded, lookup_empty.
  unfold misspelled. rewrite andb_true_iff, bool_decide_eq_true.
  split.
  - intros [(Hw & [Ht Hb] & ->)|[_ ?]]; [|done].
    split; [done|]. split; [done|].
    exists (best_word (WORDS self) w), (get_candidates (WORDS self) w).
    by rewrite correct_word_best.
  - intros (Hw & Ht & best & ranked & Hc & Hb & ->).
    rewrite correct_word_best in Hc. injection Hc as <- <-. by left.
Qed.

End Text.

(** ** No call of the correction path raises *)

(** C7. [get_candidates] returns a list that is not empty, for every model
    and every string, so the indexing in [correct_word] cannot raise:
    [correct_word] returns the head of that list and the list; and
    [correct_text], which calls it for every word part, returns as well. *)
Theorem spell_check_total (SO : SetOrder) (model : gmap str Z) (word : str) :
  get_candidates model word ≠ []
  ∧ (∃ best ranked_list,
       correct_word model word = Ok (best, ranked_list)
       ∧ ranked_list = get_candidates model word
       ∧ head ranked_list.*1 = Some best)
  ∧ (∀ uni_isalnum self text,
       ∃ r, correct_text uni_isalnum self text = Ok r).
Proof.
  split; [apply get_candidates_nonempty|]. split.
  - destruct (correct_word_Ok model word) as (best & f & rest & Hg & Hc).
    exists best, ((best, f) :: rest). by rewrite Hc, Hg.
  - intros uni_isalnum self text. eexists. apply correct_text_spec.
Qed.

(** ** Segmentation *)

Section Segmentation.

Context {SO : SetOrder}.
Variable uni_isalnum : codepoint → bool.
Implicit Types (WORDS : gmap str Z) (self : SpellChecker) (text part : str).

Lemma pending_start c :
  pending (start uni_isalnum c) = if kept uni_isalnum c then [c] else [].
Proof.
  unfold start, kept. destruct (is_telugu c); [done|].
  by destruct (is_nonword_char uni_isalnum c).
Qed.

Lemma filter_kept_cons c rest :
  filter (kept uni_isalnum) (c :: rest)
  = (if kept uni_isalnum c then [c] else []) ++ filter (kept uni_isalnum) rest.
Proof. rewrite filter_cons. by destruct (kept uni_isalnum c). Qed.

(** The parts, concatenated, are the text without the code points that are
    not kept: nothing is added or moved, and exactly the word characters
    outside the Telugu block are passed over. *)
Lemma scan_concat st text :
  concat (scan uni_isalnum st text)
  = pending st ++ filter (kept uni_isalnum) text.
Proof.
  revert st. induction text as [|c rest IH]; intros st.
  - destruct st; cbn; by rewrite ?app_nil_r.
  - assert (∀ acc, acc ++ concat (scan uni_isalnum (start uni_isalnum c) rest)
                   = acc ++ filter (kept uni_isalnum) (c :: rest)) as Hstart
      by (intros acc; by rewrite IH, pending_start, filter_kept_cons).
    destruct st as [|acc|acc]; cbn [scan pending].
    + apply (Hstart []).
    + destruct (is_telugu c) eqn:Hc; [|apply Hstart].
      rewrite IH, filter_kept_cons.
      replace (kept uni_isalnum c) with true by (unfold kept; by rewrite Hc).
      cbn. by rewrite <- app_assoc.
    + destruct (is_nonword_char uni_isalnum c) eqn:Hc; [|apply Hstart].
      rewrite IH, filter_kept_cons.
      replace (kept uni_isalnum c) with true
        by (unfold kept; by rewrite Hc, orb_true_r).
      cbn. by rewrite <- app_assoc.
Qed.

Lemma findall_concat text :
  concat (findall uni_isalnum text) = filter (kept uni_isalnum) text.
Proof. apply (scan_concat Idle). Qed.

Lemma findall_lossless text :
  Forall (λ c, kept uni_isalnum c = true) text →
  concat (findall uni_isalnum text) = text.
Proof.
  intros Hok. rewrite findall_concat.
  induction Hok as [|c rest Hc _ IH]; [done|].
  rewrite filter_kept_cons, Hc. cbn. by rewrite IH.
Qed.

(** Every part is a run of one of the two alternatives; the test of the
    loop, a match at the start of the part, tells which. *)
Lemma start_ok c : state_ok uni_isalnum (start uni_isalnum c).
Proof.
  unfold start. destruct (is_telugu c) eqn:Ht.
  - split; [done|]. by repeat constructor.
  - destruct (is_nonword_char uni_isalnum c) eqn:Hn; [|done].
    split; [done|]. split; [done|]. by repeat constructor.
Qed.

Lemma scan_parts st text :
  state_ok uni_isalnum st →
  Forall (λ part, telugu_run part ∨ nonword_run uni_isalnum part)
    (scan uni_isalnum st text).
Proof.
  revert st. induction text as [|c rest IH]; intros st Hst.
  - destruct st; cbn;
      [constructor | constructor; [by left|constructor]
      | constructor; [by right|constructor]].
  - pose proof (IH _ (start_ok c)) as Hstart.
    destruct st as [|acc|acc]; cbn [scan]; [done| |].
    + destruct (is_telugu c) eqn:Hc; [|constructor; [by left|done]].
      apply IH. destruct Hst as [Hne Hall]. split.
      * by destruct acc.
      * apply Forall_app. by repeat constructor.
    + destruct (is_nonword_char uni_isalnum c) eqn:Hc;
        [|constructor; [by right|done]].
      apply IH. destruct Hst as (Hne & Hm & Hall). split; [|split].
      * by destruct acc.
      * by destruct acc.
      * apply Forall_app. by repeat constructor.
Qed.

Lemma findall_parts text :
  Forall (λ part, telugu_run part ∨ nonword_run uni_isalnum part)
    (findall uni_isalnum text).
Proof. by apply scan_parts. Qed.

Lemma best_word_known_or_same WORDS word :
  best_word WORDS word = word ∨ is_Some (WORDS !! best_word WORDS word).
Proof.
  unfold best_word, get_candidates. cbv zeta.
  case_bool_decide as HX; [by left|].
  destruct (rank WORDS (candidate_set WORDS word)) as [|[b f] l] eqn:Hr;
    [by left|].
  right.
  assert ((b, f) ∈ rank WORDS (candidate_set WORDS word)) as Hb
    by (rewrite Hr; left).
  apply elem_of_rank in Hb as [Hb _].
  apply elem_of_candidate_set in Hb as [Hb|(_ & _ & Hb & _)]; [|done].
  by apply elem_of_tier01 in Hb as [Hb _].
Qed.

(** What [correct_text] does keep of the segmentation: the corrected
    sentence is the concatenation of one span per part, a part that is not
    a Telugu run is its own span, and the span of a Telugu run is the run
    itself or a key of the model; every part is a run of Telugu-block code
    points or a run of [\W] code points; the parts concatenate to the text
    without the code points that are not kept, hence to the text itself
    when every code point is of the Telugu block or of [\W]. *)
Lemma correct_text_spans self text :
  let parts := findall uni_isalnum text in
  (∃ cmap self',
     correct_text uni_isalnum self text
     = Ok ((concat (emitted (WORDS self) <$> parts), cmap), self'))
  ∧ Forall (λ part,
      (re_match_telugu part = false → emitted (WORDS self) part = part)
      ∧ (emitted (WORDS self) part = part
         ∨ is_Some (WORDS self !! emitted (WORDS self) part))) parts
  ∧ Forall (λ part, telugu_run part ∨ nonword_run uni_isalnum part) parts
  ∧ concat parts = filter (kept uni_isalnum) text
  ∧ (Forall (λ c, kept uni_isalnum c = true) text → concat parts = text).
Proof.
  intros parts. split; [|split; [|split; [apply findall_parts|split]]].
  - eexists _, _. apply correct_text_spec.
  - apply Forall_forall. intros part _. unfold emitted.
    destruct (re_match_telugu part); [|by split; [|left]].
    split; [done|]. apply best_word_known_or_same.
  - apply findall_concat.
  - apply findall_lossless.
Qed.

(** C2, at the failing input [ab 12]: the letters and the digits are in
    neither alternative of the pattern, so the only part is the space, and
    the corrected sentence is the space alone, not the text. *)
Theorem latin_text_dropped self :
  findall uni_isalnum latin_text = [[32%N]]
  ∧ (∃ self', correct_text uni_isalnum self latin_text
              = Ok (([32%N], ∅), self'))
  ∧ concat (findall uni_isalnum latin_text) ≠ latin_text.
Proof.
  split; [done|]. split; [|done].
  eexists. rewrite correct_text_spec. done.
Qed.

End Segmentation.

(** ** Loading the model *)

(** C8, as the code has it. With no file at the path the constructor
    returns a checker with no known word and total 0, on which every word
    gets the pass-through list; a file that is not JSON makes the
    constructor raise the decoding error; a stored table is taken as it
    is. *)
Theorem init_load_failure (SO : SetOrder) (path : str) (fs : str → model_file) :
  match fs path with
  | Absent =>
      ∃ sc, init path fs = Ok sc
        ∧ WORDS sc = ∅ ∧ size (WORDS sc) = 0 ∧ TOTAL_WORDS sc = 0%Z
        ∧ ∀ word, get_candidates (WORDS sc) word = [(word, 0%Z)]
  | Malformed => init path fs = Raise JSONDecodeError
  | Stored table =>
      init path fs = Ok (mkSpellChecker path table (sum_values table) None ∅)
  end.
Proof.
  unfold init. destruct (fs path) as [| |table]; cbn; [|done..].
  eexists. split; [done|]. cbn. split; [done|]. split; [done|]. split; [done|].
  intros word. apply get_candidates_pass_through, no_candidates; done.
Qed.

(** C8, as stated, fails for a corrupt source: no checker is constructed,
    the decoding error leaves the constructor. *)
Lemma init_malformed_raises :
  init MODEL_PATH (λ _, Malformed) = Raise JSONDecodeError.
Proof. done. Qed.

(** * Further properties of the checker *)

(** ** The ranked list *)

Lemma candidate_set_empty_unknown `{SO : SetOrder} (WORDS : gmap str Z)
    (word : str) :
  candidate_set WORDS word = ∅ → WORDS !! word = None.
Proof.
  intros HX. apply eq_None_not_Some. intros Hk.
  assert (word ∈ candidate_set WORDS word) as Hin
    by (apply elem_of_candidate_set; left; by apply known_word_in_tier01).
  rewrite HX in Hin. by apply not_elem_of_empty in Hin.
Qed.

Lemma get_candidates_rank `{SO : SetOrder} (WORDS : gmap str Z) (word : str) :
  candidate_set WORDS word ≠ ∅ →
  get_candidates WORDS word = rank WORDS (candidate_set WORDS word).
Proof.
  intros Hne. unfold get_candidates. cbv zeta.
  by rewrite (bool_decide_eq_false_2 _ Hne).
Qed.

Lemma rank_words `{SO : SetOrder} (WORDS : gmap str Z) (X : gset str) :
  (rank WORDS X).*1 ≡ₚ set_iter X.
Proof.
  unfold rank. rewrite sorted_reverse_perm, <- list_fmap_compose.
  by rewrite list_fmap_id.
Qed.

(** The ranked list names each candidate once, with the count the model
    has for it (0 for the unknown word passed through); its words are the
    candidate set, or the word alone when that set is empty; and no entry
    has a higher count than the first one. *)
Theorem ranked_list_invariants `{SO : SetOrder} (WORDS : gmap str Z)
    (word : str) :
  NoDup (get_candidates WORDS word).*1
  ∧ Forall (λ p, p.2 = default 0%Z (WORDS !! p.1)) (get_candidates WORDS word)
  ∧ list_to_set (C:=gset str) (get_candidates WORDS word).*1
    = (if bool_decide (candidate_set WORDS word = ∅) then {[ word ]}
       else candidate_set WORDS word)
  ∧ length (get_candidates WORDS word)
    = Nat.max 1 (size (candidate_set WORDS word))
  ∧ (∀ best f rest,
       get_candidates WORDS word = (best, f) :: rest →
       Forall (λ p, (p.2 ≤ f)%Z) rest).
Proof.
  destruct (decide (candidate_set WORDS word = ∅)) as [HX|HX].
  - rewrite (get_candidates_pass_through _ _ HX), (bool_decide_eq_true_2 _ HX).
    rewrite HX, size_empty. cbn.
    split; [apply NoDup_singleton|].
    split.
    { constructor; [|constructor]. cbn.
      by rewrite (candidate_set_empty_unknown _ _ HX). }
    split; [apply (right_id_L ∅ _)|]. split; [done|].
    intros best f rest [= <- <- <-]. constructor.
  - rewrite (get_candidates_rank _ _ HX), (bool_decide_eq_false_2 _ HX).
    split; [rewrite rank_words; apply NoDup_set_iter|].
    split.
    { apply Forall_forall. intros [c f] Hp%elem_of_rank. by destruct Hp. }
    split.
    { apply leibniz_equiv. intros x.
      by rewrite elem_of_list_to_set, rank_words, elem_of_set_iter. }
    split.
    { rewrite length_rank.
      assert (size (candidate_set WORDS word) ≠ 0)
        by (by intros ?%size_empty_inv%leibniz_equiv).
      lia. }
    intros best f rest Hl.
    pose proof (get_candidates_sorted WORDS word) as Hs.
    rewrite (get_candidates_rank _ _ HX), Hl in Hs.
    by apply StronglySorted_inv in Hs as [_ Hs].
Qed.

(** A known word is always in its own ranked list, with its count, and
    every other word of the list is one edit away: the two-edit tier is
    never reached for it.  The second test of the guard before that tier
    follows from the first one: with no candidate in the first two tiers
    the word is unknown. *)
Theorem known_word_listed `{SO : SetOrder} (WORDS : gmap str Z) (word : str)
    (fw : Z) :
  WORDS !! word = Some fw →
  (word, fw) ∈ get_candidates WORDS word
  ∧ Forall (λ p, is_Some (WORDS !! p.1) ∧ (p.1 = word ∨ p.1 ∈ edits1 word))
      (get_candidates WORDS word)
  ∧ (∀ w, tier01 WORDS w = ∅ → WORDS !! w = None).
Proof.
  intros Hw.
  assert (word ∈ tier01 WORDS word) as Hin
    by (by apply known_word_in_tier01).
  assert (tier01 WORDS word ≠ ∅) as Hne
    by (by apply (non_empty_inhabited_L word)).
  assert (get_candidates WORDS word = rank WORDS (tier01 WORDS word)) as Hg.
  { rewrite <- (candidate_set_tier01 _ _ Hne). apply get_candidates_rank.
    by rewrite candidate_set_tier01. }
  rewrite Hg. split; [apply elem_of_rank; by rewrite Hw|]. split.
  - apply Forall_forall. intros [c f] [Hc _]%elem_of_rank.
    by apply elem_of_tier01 in Hc.
  - intros w Ht. apply eq_None_not_Some. intros Hk.
    apply known_word_in_tier01 in Hk. rewrite Ht in Hk.
    by apply not_elem_of_empty in Hk.
Qed.

(** [mahana] in the model that knows it and [maha]. *)
Lemma known_word_listed_witness :
  (mahana, 3%Z) ∈ get_candidates (SO:=elements_order) skewed_model mahana.
Proof.
  apply (known_word_listed (SO:=elements_order) skewed_model mahana 3).
  unfold skewed_model. rewrite lookup_insert_ne by done.
  apply lookup_singleton_eq.
Defined.

(** A known word stays as it is when it is more frequent than every other
    known string one edit away. *)
Theorem known_word_kept `{SO : SetOrder} (WORDS : gmap str Z) (word : str)
    (fw : Z) :
  WORDS !! word = Some fw →
  (∀ e fe, e ∈ edits1 word → e ≠ word → WORDS !! e = Some fe → (fe < fw)%Z) →
  ∃ rest, correct_word WORDS word = Ok (word, (word, fw) :: rest).
Proof.
  intros Hw Hlt.
  assert (word ∈ tier01 WORDS word) as Hin
    by (by apply known_word_in_tier01).
  assert (tier01 WORDS word ≠ ∅) as Hne
    by (by apply (non_empty_inhabited_L word)).
  assert (get_candidates WORDS word = rank WORDS (tier01 WORDS word)) as Hg.
  { rewrite <- (candidate_set_tier01 _ _ Hne). apply get_candidates_rank.
    by rewrite candidate_set_tier01. }
  destruct (correct_word_Ok WORDS word) as (b & fb & rest & Hl & ->).
  assert ((word, fw) ∈ get_candidates WORDS word) as Hword
    by (rewrite Hg; apply elem_of_rank; by rewrite Hw).
  assert ((b, fb) ∈ get_candidates WORDS word) as Hb by (rewrite Hl; left).
  rewrite Hg in Hb. apply elem_of_rank in Hb as [Hb ->].
  destruct (decide (b = word)) as [->|Hbw].
  { rewrite Hw. by exists rest. }
  exfalso.
  apply elem_of_tier01 in Hb as [[fe Hfe] [?|Hb]]; [done|].
  pose proof (Hlt b fe Hb Hbw Hfe) as Hlow.
  pose proof (get_candidates_sorted WORDS word) as Hs.
  rewrite Hl in Hs. apply StronglySorted_inv in Hs as [_ Hs].
  rewrite Hl in Hword. apply elem_of_cons in Hword as [[= ? ?]|Hword]; [done|].
  rewrite Forall_forall in Hs. specialize (Hs _ Hword).
  unfold ge_key in Hs. cbn in Hs. rewrite Hfe in Hs. cbn in Hs. lia.
Qed.

(** [maha] in the model where it is the more frequent of the two words. *)
Lemma known_word_kept_witness :
  ∃ rest, correct_word (SO:=elements_order) skewed_model maha
          = Ok (maha, (maha, 50%Z) :: rest).
Proof.
  apply (known_word_kept (SO:=elements_order) skewed_model maha 50).
  - apply lookup_insert_eq.
  - intros e fe _ Hne Hl. unfold skewed_model in Hl.
    apply lookup_insert_Some in Hl as [[? _]|[_ Hl]]; [by subst|].
    apply lookup_singleton_Some in Hl as [_ <-]. lia.
Defined.

(** ** How far a candidate is from the word *)

Lemma edits1_chars (w e : str) :
  e ∈ edits1 w → Forall (λ c, c ∈ w ∨ c ∈ TELUGU_ALPHABET) e.
Proof.
  intros He. apply Forall_forall. intros x. revert He.
  intros [(L & a & R & -> & ->)|[(L & a & b & R & -> & ->)|
    [(L & a & c & R & -> & Hc & ->)|(L & c & R & -> & Hc & ->)]]]%elem_of_edits1;
    rewrite ?elem_of_app, ?elem_of_cons; intuition (subst; auto).
Qed.

Lemma edits2_near `{SO : SetOrder} (w e : str) :
  e ∈ edits2 w →
  length w - 2 ≤ length e ≤ length w + 2
  ∧ Forall (λ c, c ∈ w ∨ c ∈ TELUGU_ALPHABET) e.
Proof.
  intros (e1 & H1 & H2)%elem_of_edits2.
  pose proof (edits1_length _ _ H1). pose proof (edits1_length _ _ H2).
  split; [lia|].
  pose proof (edits1_chars _ _ H1) as Hc1.
  pose proof (edits1_chars _ _ H2) as Hc2.
  rewrite Forall_forall in Hc1, Hc2. apply Forall_forall. intros x Hx.
  destruct (Hc2 x Hx) as [Hx1|?]; [|by right]. by apply Hc1.
Qed.

(** Every word of the ranked list is within two code points of the length
    of the word, and is written with code points of the word and of
    [TELUGU_ALPHABET] only: no candidate brings in a code point, such as a
    vowel sign, that is in neither. *)
Theorem candidates_near `{SO : SetOrder} (WORDS : gmap str Z) (word : str) :
  Forall (λ p, length word - 2 ≤ length p.1 ≤ length word + 2
               ∧ Forall (λ c, c ∈ word ∨ c ∈ TELUGU_ALPHABET) p.1)
    (get_candidates WORDS word).
Proof.
  assert (Forall (λ c, c ∈ word ∨ c ∈ TELUGU_ALPHABET) word) as Hself
    by (apply Forall_forall; auto).
  destruct (decide (candidate_set WORDS word = ∅)) as [HX|HX].
  - rewrite (get_candidates_pass_through _ _ HX).
    constructor; [|constructor]. cbn. split; [lia|done].
  - rewrite (get_candidates_rank _ _ HX). apply Forall_forall.
    intros [c f] [Hc _]%elem_of_rank. cbn.
    apply elem_of_candidate_set in Hc as [Hc|(_ & _ & _ & Hc)].
    + apply elem_of_tier01 in Hc as [_ [->|Hc]]; [split; [lia|done]|].
      pose proof (edits1_length _ _ Hc). split; [lia|].
      by apply edits1_chars.
    + by apply edits2_near.
Qed.

(** ** Edits that can be undone *)

(** One edit away is a symmetric relation on words written in the
    alphabet: what [edits1] makes of such a word has the word among its own
    edits (an insertion undoes a deletion, a replacement a replacement, a
    swap a swap, a deletion an insertion). *)
Theorem edits1_symmetric (w e : str) :
  Forall (λ c, c ∈ TELUGU_ALPHABET) w → e ∈ edits1 w → w ∈ edits1 e.
Proof.
  intros Hw He. rewrite Forall_forall in Hw. apply elem_of_edits1.
  apply elem_of_edits1 in He
    as [(L & a & R & -> & ->)|[(L & a & b & R & -> & ->)|
        [(L & a & c & R & -> & Hc & ->)|(L & c & R & -> & Hc & ->)]]].
  - right; right; right. exists L, a, R. split; [done|]. split; [|done].
    apply Hw. rewrite elem_of_app, elem_of_cons. auto.
  - right; left. by exists L, b, a, R.
  - right; right; left. exists L, c, a, R. split; [done|]. split; [|done].
    apply Hw. rewrite elem_of_app, elem_of_cons. auto.
  - left. by exists L, c, R.
Qed.

(** The one-letter word MA and the two-letter word MA HA. *)
Lemma edits1_symmetric_witness :
  [0x0C2E; 0x0C39]%N ∈ edits1 [0x0C2E]%N
  ∧ [0x0C2E]%N ∈ edits1 [0x0C2E; 0x0C39]%N.
Proof.
  assert ([0x0C2E; 0x0C39]%N ∈ edits1 [0x0C2E]%N) as He.
  { apply elem_of_edits1. right; right; right.
    exists [0x0C2E]%N, 0x0C39%N, []. split; [done|]. split; [|done].
    by apply (list_elem_of_lookup_2 _ 48). }
  split; [exact He|].
  apply (edits1_symmetric [0x0C2E]%N [0x0C2E; 0x0C39]%N); [|exact He].
  constructor; [|constructor]. by apply (list_elem_of_lookup_2 _ 40).
Defined.

(** ** The candidates map and the corrected text *)

Section Report.

Context {SO : SetOrder}.
Variable uni_isalnum : codepoint → bool.
Implicit Types (WORDS : gmap str Z) (self : SpellChecker) (text part : str).



End Report.

(** * The model builder *)

(** ** tokenize *)

Lemma tokenize_Some (text : str) : tokenize (Some text) = scan_telugu None text.
Proof. by destruct text. Qed.

Lemma scan_telugu_concat (cur : option str) (text : str) :
  concat (scan_telugu cur text) = default [] cur ++ filter is_telugu text.
Proof.
  revert cur. induction text as [|c rest IH]; intros cur.
  - destruct cur; cbn; by rewrite ?app_nil_r.
  - cbn [scan_telugu]. rewrite filter_cons.
    destruct (is_telugu c) eqn:Hc; cbn.
    + rewrite IH. cbn. by rewrite <- app_assoc.
    + destruct cur; cbn; by rewrite IH.
Qed.

Lemma scan_telugu_runs (cur : option str) (text : str) :
  (∀ acc, cur = Some acc → telugu_run acc) →
  Forall telugu_run (scan_telugu cur text).
Proof.
  revert cur. induction text as [|c rest IH]; intros cur Hcur.
  - destruct cur; cbn; [|constructor].
    constructor; [by apply Hcur|constructor].
  - cbn [scan_telugu]. destruct (is_telugu c) eqn:Hc.
    + apply IH. intros acc [= <-]. split; [by destruct (default [] cur)|].
      apply Forall_app. split; [|by repeat constructor].
      destruct cur as [acc|]; [|constructor]. by apply (Hcur acc).
    + destruct cur as [acc|]; [constructor; [by apply Hcur|]|]; by apply IH.
Qed.

(** The tokens are the runs of Telugu-block code points of the text: each
    is such a run and not empty, and together they are the Telugu-block
    code points of the text in their order, so nothing else is ever counted
    and no such code point is left out.  No text and the empty text have
    no token. *)
Theorem tokenize_tokens (text : str) :
  Forall telugu_run (tokenize (Some text))
  ∧ concat (tokenize (Some text)) = filter is_telugu text
  ∧ tokenize None = [] ∧ tokenize (Some []) = [].
Proof.
  rewrite tokenize_Some. split; [by apply scan_telugu_runs|].
  split; [apply (scan_telugu_concat None)|done].
Qed.

Lemma scan_telugu_split (cur : option str) (a b : str) (c : codepoint) :
  is_telugu c = false →
  scan_telugu cur (a ++ c :: b) = scan_telugu cur a ++ scan_telugu None b.
Proof.
  intros Hc. revert cur. induction a as [|x a IH]; intros cur.
  - cbn. rewrite Hc. by destruct cur.
  - cbn [app scan_telugu]. destruct (is_telugu x); [apply IH|].
    destruct cur; by rewrite IH.
Qed.

Lemma scan_telugu_run (cur : option str) (w : str) :
  Forall (λ c, is_telugu c = true) w → w ≠ [] →
  scan_telugu cur w = [default [] cur ++ w].
Proof.
  intros Hw. revert cur. induction Hw as [|c w Hc Hw IH]; intros cur Hne;
    [done|].
  cbn [scan_telugu]. rewrite Hc. destruct w as [|d w].
  - done.
  - rewrite IH by done. cbn. by rewrite <- app_assoc.
Qed.

Lemma tokenize_separated (ws : list str) (c : codepoint) :
  Forall telugu_run ws → is_telugu c = false →
  scan_telugu None (concat ((λ w, w ++ [c]) <$> ws)) = ws.
Proof.
  intros Hws Hc. induction Hws as [|w ws [Hne Hw] _ IH]; [done|].
  cbn [fmap list_fmap concat]. rewrite <- app_assoc. cbn [app].
  rewrite (scan_telugu_split None _ _ _ Hc), IH.
  by rewrite scan_telugu_run.
Qed.

(** [tokenize] cuts at every code point outside the Telugu block: the
    tokens of a text around such a code point are the tokens of what stands
    before it and those of what stands after it; and words put one after
    another, each followed by such a code point, are got back as the
    tokens. *)
Theorem tokenize_round_trip (ws : list str) (a b : str) (c : codepoint) :
  is_telugu c = false →
  Forall telugu_run ws →
  tokenize (Some (a ++ c :: b)) = tokenize (Some a) ++ tokenize (Some b)
  ∧ tokenize (Some (concat ((λ w, w ++ [c]) <$> ws))) = ws.
Proof.
  intros Hc Hws. rewrite !tokenize_Some. split.
  - by apply scan_telugu_split.
  - by apply tokenize_separated.
Qed.

(** [maha] and [desam], each followed by a space. *)
Lemma tokenize_round_trip_witness :
  tokenize (Some (maha ++ 32%N :: desam))
  = tokenize (Some maha) ++ tokenize (Some desam)
  ∧ tokenize (Some (concat ((λ w, w ++ [32%N]) <$> [maha; desam])))
    = [maha; desam].
Proof.
  apply (tokenize_round_trip [maha; desam] maha desam 32%N); [done|].
  repeat constructor; done.
Defined.

(** ** The words of the checker and the tokens of the builder *)

Section PartsAndTokens.

Variable uni_isalnum : codepoint → bool.

(** The open token after one more code point. *)
Lemma scan_telugu_step (cur : option str) (c : codepoint) (rest : str) token :
  token ∈ scan_telugu
            (if is_telugu c then Some (default [] cur ++ [c]) else None) rest →
  token ∈ scan_telugu cur (c :: rest).
Proof.
  cbn [scan_telugu]. destruct (is_telugu c); [done|].
  destruct cur; [by right|done].
Qed.

Lemma scan_parts_suffix (st : scan_state) (cur : option str) (text : str) :
  state_ok uni_isalnum st →
  (∀ p, st = InTelugu p → ∃ acc, cur = Some acc ∧ p `suffix_of` acc) →
  ∀ part, part ∈ scan uni_isalnum st text → re_match_telugu part = true →
    ∃ token, token ∈ scan_telugu cur text ∧ part `suffix_of` token.
Proof.
  revert st cur. induction text as [|c rest IH]; intros st cur Hok Hrel part.
  - destruct st as [|p|q]; cbn.
    + by intros ?%elem_of_nil.
    + intros ->%list_elem_of_singleton _.
      destruct (Hrel p eq_refl) as (acc & -> & Hs).
      exists acc. split; [by left|done].
    + intros ->%list_elem_of_singleton Ht.
      destruct Hok as (_ & Hq & _). by rewrite Hq in Ht.
  - assert (∀ part, part ∈ scan uni_isalnum (start uni_isalnum c) rest →
              re_match_telugu part = true →
              ∃ token, token ∈ scan_telugu cur (c :: rest)
                       ∧ part `suffix_of` token) as Hstart.
    { intros part' Hin Ht.
      destruct (IH (start uni_isalnum c)
                  (if is_telugu c then Some (default [] cur ++ [c]) else None)
                  (start_ok uni_isalnum c)) with (part := part')
        as (token & Htok & Hs); [|done|done|].
      - unfold start. intros p. destruct (is_telugu c).
        + intros [= <-]. eexists. split; [done|]. by apply suffix_app_r.
        + by destruct (is_nonword_char uni_isalnum c).
      - exists token. split; [by apply scan_telugu_step|done]. }
    destruct st as [|p|q]; cbn [scan].
    + apply Hstart.
    + destruct (Hrel p eq_refl) as (acc & -> & Hs).
      destruct (is_telugu c) eqn:Hc.
      * intros Hin Ht.
        destruct (IH (InTelugu (p ++ [c])) (Some (acc ++ [c])))
          with (part := part) as (token & Htok & Hs'); [| |done|done|].
        -- destruct Hok as [Hne Hall]. split; [by destruct p|].
           apply Forall_app. by repeat constructor.
        -- intros ? [= <-]. eexists. split; [done|]. by apply suffix_app.
        -- exists token. split; [|done]. cbn [scan_telugu]. by rewrite Hc.
      * intros [->|Hin]%elem_of_cons Ht.
        -- exists acc. split; [|done]. cbn [scan_telugu]. rewrite Hc. by left.
        -- by apply Hstart.
    + destruct (is_nonword_char uni_isalnum c) eqn:Hc.
      * intros Hin Ht.
        destruct (IH (InNonWord (q ++ [c]))
                    (if is_telugu c then Some (default [] cur ++ [c])
                     else None))
          with (part := part) as (token & Htok & Hs'); [|done|done|done|].
        -- destruct Hok as (Hne & Hq & Hall). split; [by destruct q|].
           split; [by destruct q|]. apply Forall_app. by repeat constructor.
        -- exists token. split; [by apply scan_telugu_step|done].
      * intros [->|Hin]%elem_of_cons Ht.
        -- destruct Hok as (_ & Hq & _). by rewrite Hq in Ht.
        -- by apply Hstart.
Qed.

(** Every word part that [correct_text] looks up is a token that
    [tokenize] gives for the same text, or the end of one: a run of [\W]
    can take the first code points of a Telugu run, and the part then
    starts inside the token. *)
Theorem word_parts_end_tokens (text : str) :
  Forall (λ part, ∃ token,
            token ∈ tokenize (Some text) ∧ part `suffix_of` token)
    (filter (λ part, re_match_telugu part = true) (findall uni_isalnum text)).
Proof.
  apply Forall_forall. intros part [Ht Hin]%list_elem_of_filter.
  rewrite tokenize_Some.
  by apply (scan_parts_suffix Idle None text).
Qed.

End PartsAndTokens.

(** A run of [\W] that takes the first code point of a Telugu run: with a
    vowel sign that is not alphanumeric, the text of a space, the sign and
    KA has the word part KA, and the token sign-KA. *)
Example word_part_inside_token :
  let uni := λ c, negb (c =? 0x0C3E)%N in
  findall uni [32; 0x0C3E; 0x0C15]%N = [[32; 0x0C3E]; [0x0C15]]%N
  ∧ tokenize (Some [32; 0x0C3E; 0x0C15]%N) = [[0x0C3E; 0x0C15]]%N.
Proof. done. Qed.

(** ** Counting *)

Lemma occurrences_cons (w x : str) (words : list str) :
  occurrences w (x :: words)
  = (if decide (w = x) then 1 else 0) + occurrences w words.
Proof. unfold occurrences. rewrite filter_cons. by case_decide. Qed.

Lemma occurrences_app (w : str) (l1 l2 : list str) :
  occurrences w (l1 ++ l2) = occurrences w l1 + occurrences w l2.
Proof. unfold occurrences. by rewrite filter_app, length_app. Qed.

Lemma occurrences_pos (w : str) (words : list str) :
  0 < occurrences w words ↔ w ∈ words.
Proof.
  induction words as [|x words IH].
  - rewrite elem_of_nil. cbn. lia.
  - rewrite occurrences_cons, elem_of_cons. case_decide.
    + split; [auto|lia].
    + split; [intros ?; right; apply IH; lia|].
      intros [?|?%IH]; [done|lia].
Qed.

Lemma lookup_counter_update (m : gmap str Z) (words : list str) (w : str) :
  counter_update m words !! w
  = if decide (occurrences w words = 0) then m !! w
    else Some (default 0 (m !! w) + Z.of_nat (occurrences w words))%Z.
Proof.
  revert m. induction words as [|x words IH]; intros m; [done|].
  unfold counter_update in *. cbn [foldl]. rewrite IH, occurrences_cons.
  destruct (decide (w = x)) as [->|Hne].
  - rewrite lookup_insert_eq. cbn [default from_option]. unfold id.
    repeat case_decide; try lia; apply (f_equal Some); lia.
  - rewrite lookup_insert_ne by done. by repeat case_decide.
Qed.

Lemma sum_values_insert (m : gmap str Z) (w : str) (v : Z) :
  sum_values (<[w := v]> m) = (sum_values m + v - default 0 (m !! w))%Z.
Proof.
  assert (∀ m' : gmap str Z, m' !! w = None → ∀ x,
            sum_values (<[w := x]> m') = (sum_values m' + x)%Z) as Hfresh.
  { intros m' Hm' x. unfold sum_values.
    rewrite map_fold_insert_L; [done| |done]. intros. lia. }
  destruct (m !! w) as [old|] eqn:Hw; cbn [default from_option]; unfold id.
  - rewrite <- (insert_delete_eq m), Hfresh by apply lookup_delete_eq.
    rewrite <- (insert_delete_id m w old) at 2 by done.
    rewrite Hfresh by apply lookup_delete_eq. lia.
  - rewrite Hfresh by done. lia.
Qed.

Lemma sum_values_counter_update (m : gmap str Z) (words : list str) :
  sum_values (counter_update m words)
  = (sum_values m + Z.of_nat (length words))%Z.
Proof.
  revert m. induction words as [|x words IH]; intros m.
  - cbn. lia.
  - unfold counter_update in *. cbn [foldl length].
    rewrite IH, sum_values_insert. lia.
Qed.

Lemma sum_values_empty : sum_values ∅ = 0%Z.
Proof. apply map_fold_empty. Qed.

(** The loop of [build_model] is [Counter.update] over the tokens of the
    pages, and counts one page for every end of a page element. *)
Lemma count_event_spec (namespace : str) (st : gmap str Z * nat)
    (ev : event_kind * Element) :
  count_event namespace (text_path_of namespace) st ev
  = (counter_update st.1 (page_tokens namespace ev),
     st.2 + (if bool_decide (ev.1 = EndEvent
                              ∧ tag ev.2 = qualified namespace page_name)
             then 1 else 0)).
Proof.
  destruct st as [counts pages], ev as [[] elem];
    unfold count_event, page_tokens; cbn [fst snd].
  - rewrite bool_decide_eq_false_2 by (by intros [? _]).
    by rewrite Nat.add_0_r.
  - destruct (decide (tag elem = qualified namespace page_name)) as [Ht|Ht].
    + rewrite !(bool_decide_eq_true_2 _ Ht), bool_decide_eq_true_2 by done.
      rewrite Nat.add_1_r.
      by destruct (find_text elem (text_path_of namespace)) as [[[|c t]|]|].
    + rewrite !(bool_decide_eq_false_2 _ Ht).
      rewrite bool_decide_eq_false_2 by (by intros [_ ?]).
      by rewrite Nat.add_0_r.
Qed.

Lemma counter_update_app (m : gmap str Z) (l1 l2 : list str) :
  counter_update m (l1 ++ l2) = counter_update (counter_update m l1) l2.
Proof. apply foldl_app. Qed.

Lemma foldl_count_event (namespace : str) (context : list (event_kind * Element))
    (st : gmap str Z * nat) :
  foldl (count_event namespace (text_path_of namespace)) st context
  = (counter_update st.1 (context ≫= page_tokens namespace),
     st.2 + length (filter (λ ev, ev.1 = EndEvent
                              ∧ tag ev.2 = qualified namespace page_name)
                      context)).
Proof.
  revert st. induction context as [|ev context IH]; intros st.
  - cbn. destruct st. by rewrite Nat.add_0_r.
  - cbn [foldl]. rewrite IH, count_event_spec. cbn [fst snd].
    rewrite bind_cons, counter_update_app, filter_cons.
    f_equal. case_bool_decide; case_decide; try done; cbn [length]; lia.
Qed.

Lemma tokenize_runs (text : option str) : Forall telugu_run (tokenize text).
Proof.
  destruct text as [text|]; [|constructor].
  rewrite tokenize_Some. by apply scan_telugu_runs.
Qed.

Lemma corpus_tokens_runs (f : xml_file) : Forall telugu_run (corpus_tokens f).
Proof.
  destruct f as [|[|[kind root] context] wf]; try constructor.
  cbn [corpus_tokens]. apply Forall_forall. intros w.
  intros (ev & Hw & _)%list_elem_of_bind. revert w Hw. apply Forall_forall.
  destruct ev as [[] elem]; cbn [page_tokens]; [constructor|].
  case_bool_decide; [|constructor].
  destruct (find_text elem _); [apply tokenize_runs|constructor].
Qed.

Lemma build_counts_well_formed (kind : event_kind) (root : Element)
    (context : list (event_kind * Element)) :
  build_counts (Xml ((kind, root) :: context) true)
  = inr (counter_update ∅
           (corpus_tokens (Xml ((kind, root) :: context) true)),
         length (filter (λ ev, ev.1 = EndEvent
                          ∧ tag ev.2
                            = qualified (namespace_of (tag root)) page_name)
                   context)).
Proof.
  unfold build_counts. cbv zeta. by rewrite foldl_count_event.
Qed.

Lemma lookup_counts (words : list str) (w : str) :
  counter_update ∅ words !! w
  = if decide (occurrences w words = 0) then None
    else Some (Z.of_nat (occurrences w words)).
Proof. rewrite lookup_counter_update, lookup_empty. by case_decide. Qed.

Lemma counts_known (words : list str) (w : str) :
  is_Some (counter_update ∅ words !! w) ↔ w ∈ words.
Proof.
  rewrite lookup_counts, <- occurrences_pos.
  case_decide; [|split; [lia|by eexists]].
  split; [by intros [? ?]|lia].
Qed.

(** ** What a built model holds *)

(** On a document that parses to its end, the counts that [build_model]
    dumps have a key for exactly the tokens of the counted pages, each with
    the number of its occurrences among them: every key is a run of
    Telugu-block code points, every count is at least 1, and the counts add
    up to the number of tokens.  A page is counted at every end event of a
    page element, with or without text. *)
Theorem build_model_counts (kind : event_kind) (root : Element)
    (context : list (event_kind * Element)) :
  ∃ counts pages,
    build_counts (Xml ((kind, root) :: context) true) = inr (counts, pages)
    ∧ (∀ w, counts !! w
            = if decide (occurrences w (context ≫=
                           page_tokens (namespace_of (tag root))) = 0)
              then None
              else Some (Z.of_nat (occurrences w (context ≫=
                           page_tokens (namespace_of (tag root))))))
    ∧ map_Forall (λ w k, telugu_run w ∧ (1 ≤ k)%Z) counts
    ∧ sum_values counts
      = Z.of_nat (length (context ≫= page_tokens (namespace_of (tag root))))
    ∧ pages
      = length (filter (λ ev, ev.1 = EndEvent
                         ∧ tag ev.2
                           = qualified (namespace_of (tag root)) page_name)
                  context).
Proof.
  eexists _, _. split; [apply build_counts_well_formed|].
  cbn [corpus_tokens].
  set (tokens := context ≫= page_tokens (namespace_of (tag root))).
  split; [intros w; apply lookup_counts|].
  split; [|split; [|done]].
  - intros w k Hk. rewrite lookup_counts in Hk.
    case_decide as Hocc; [done|]. injection Hk as <-. split; [|lia].
    assert (w ∈ tokens) as Hw by (apply occurrences_pos; lia).
    pose proof (corpus_tokens_runs (Xml ((kind, root) :: context) true)) as Hr.
    rewrite Forall_forall in Hr. by apply Hr.
  - rewrite sum_values_counter_update, sum_values_empty. lia.
Qed.

(** ** From the corpus to the checker *)

(** [build_model] touches the output path only, and only when the
    document is there and parses to its end: a missing, empty or broken
    document leaves every file as it was, whatever was counted before the
    error.  After a full parse the write decides: if the output cannot be
    opened every file is as it was; if the dump breaks off the output is
    not JSON and a checker cannot be constructed on it; if the table is
    written, a checker constructed on it knows exactly the tokens of the
    counted pages, has their number as [TOTAL_WORDS], and ranks every such
    token among its own candidates with its count. *)
Theorem build_then_load (SO : SetOrder) (xml_path out : str)
    (xmls : str → xml_file) (io : str → write_outcome)
    (fs : str → model_file) :
  (∀ p, p ≠ out → build_model xml_path out xmls io fs p = fs p)
  ∧ match xmls xml_path with
    | Xml (_ :: _) true =>
        match io out with
        | Written =>
            ∃ sc, init out (build_model xml_path out xmls io fs) = Ok sc
              ∧ (∀ w, is_Some (WORDS sc !! w)
                      ↔ w ∈ corpus_tokens (xmls xml_path))
              ∧ TOTAL_WORDS sc
                = Z.of_nat (length (corpus_tokens (xmls xml_path)))
              ∧ (∀ w, w ∈ corpus_tokens (xmls xml_path) →
                   (w, Z.of_nat
                         (occurrences w (corpus_tokens (xmls xml_path))))
                   ∈ @get_candidates SO (WORDS sc) w)
        | OpenFails => build_model xml_path out xmls io fs = fs
        | DumpFails =>
            build_model xml_path out xmls io fs out = Malformed
            ∧ init out (build_model xml_path out xmls io fs)
              = Raise JSONDecodeError
        end
    | _ => build_model xml_path out xmls io fs = fs
    end.
Proof.
  split.
  { intros p Hp. unfold build_model.
    destruct (build_counts (xmls xml_path)) as [|[counts pages]]; [done|].
    destruct (io out); [|done|]; by rewrite bool_decide_eq_false_2. }
  unfold build_model.
  destruct (xmls xml_path) as [|[|[kind root] context] [|]]; try done.
  rewrite build_counts_well_formed.
  set (f := Xml ((kind, root) :: context) true).
  set (tokens := corpus_tokens f).
  destruct (io out); [|done|].
  2:{ split; [by rewrite bool_decide_eq_true_2|].
      unfold init. by rewrite bool_decide_eq_true_2. }
  exists (mkSpellChecker out (counter_update ∅ tokens)
            (sum_values (counter_update ∅ tokens)) None ∅).
  split; [unfold init; by rewrite bool_decide_eq_true_2|].
  cbn [WORDS TOTAL_WORDS].
  split; [intros w; apply counts_known|].
  split; [rewrite sum_values_counter_update, sum_values_empty; lia|].
  intros w Hw.
  assert (is_Some (counter_update ∅ tokens !! w)) as Hk
    by (by apply counts_known).
  assert (w ∈ tier01 (counter_update ∅ tokens) w) as Hin
    by (by apply known_word_in_tier01).
  assert (tier01 (counter_update ∅ tokens) w ≠ ∅) as Hne
    by (by apply (non_empty_inhabited_L w)).
  rewrite get_candidates_rank by (by rewrite candidate_set_tier01).
  rewrite candidate_set_tier01 by done.
  apply elem_of_rank. split; [done|].
  rewrite lookup_counts. case_decide as Hocc; [|done].
  apply occurrences_pos in Hw. lia.
Qed.

(** ** The namespace of the document *)

Lemma lstrip_id (ch : codepoint) (s : str) : ch ∉ s → lstrip ch s = s.
Proof.
  destruct s as [|c s]; [done|]. intros [Hc _]%not_elem_of_cons. cbn.
  by rewrite (proj2 (N.eqb_neq c ch)).
Qed.

Lemma strip_id (ch : codepoint) (s : str) : ch ∉ s → strip ch s = s.
Proof.
  intros Hs. unfold strip, rstrip. rewrite (lstrip_id _ _ Hs).
  rewrite lstrip_id by (by rewrite elem_of_reverse).
  apply reverse_involutive.
Qed.

Lemma before_first_app (sep : codepoint) (s rest : str) :
  sep ∉ s → before_first sep (s ++ sep :: rest) = s.
Proof.
  induction s as [|c s IH]; cbn.
  - by rewrite N.eqb_refl.
  - intros [Hc Hs]%not_elem_of_cons.
    by rewrite (proj2 (N.eqb_neq c sep)), IH.
Qed.

Lemma before_first_id (sep : codepoint) (s : str) :
  sep ∉ s → before_first sep s = s.
Proof.
  induction s as [|c s IH]; [done|]. cbn.
  intros [Hc Hs]%not_elem_of_cons.
  by rewrite (proj2 (N.eqb_neq c sep)), IH.
Qed.

Lemma page_tokens_other_tag (namespace : str) (ev : event_kind * Element) :
  tag ev.2 ≠ qualified namespace page_name →
  page_tokens namespace ev = []
  ∧ ¬ (ev.1 = EndEvent ∧ tag ev.2 = qualified namespace page_name).
Proof.
  intros Ht. split; [|by intros [_ ?]].
  destruct ev as [[] elem]; cbn in *; [done|].
  by rewrite bool_decide_eq_false_2.
Qed.

(** The namespace of a root tagged [{t}name] is [t], for [t] without
    braces; that of a root tagged [t] alone is [t] as well, so the loop
    then waits for elements tagged [{t}page]: in a document whose tags have
    no namespace no page is counted, and the model that is dumped is
    empty. *)
Theorem namespace_of_root (t name : str) (kind : event_kind)
    (find : str → option (option str))
    (context : list (event_kind * Element)) :
  lbrace ∉ t → rbrace ∉ t →
  Forall (λ ev, head (tag ev.2) ≠ Some lbrace) context →
  namespace_of (qualified t name) = t
  ∧ namespace_of t = t
  ∧ build_counts (Xml ((kind, mkElement t find) :: context) true)
    = inr (∅, 0).
Proof.
  intros Hl Hr Hctx.
  assert (namespace_of t = t) as Hplain.
  { unfold namespace_of. by rewrite before_first_id, strip_id. }
  split; [|split; [done|]].
  - unfold namespace_of, qualified. cbn [app].
    change (before_first rbrace (lbrace :: t ++ rbrace :: name))
      with (lbrace :: before_first rbrace (t ++ rbrace :: name)).
    rewrite before_first_app by done.
    unfold strip. cbn [lstrip]. rewrite N.eqb_refl.
    by apply strip_id.
  - rewrite build_counts_well_formed. cbn [corpus_tokens tag].
    rewrite Hplain.
    assert (Forall (λ ev, tag ev.2 ≠ qualified t page_name) context) as Hne.
    { eapply Forall_impl; [exact Hctx|]. intros ev Hev Heq.
      apply Hev. by rewrite Heq. }
    clear Hctx. induction Hne as [|ev context Hev _ IH]; [done|].
    destruct (page_tokens_other_tag t ev Hev) as [Htok Hno].
    rewrite bind_cons, Htok, filter_cons. cbn [app].
    case_decide; [done|]. exact IH.
Qed.

(** A document tagged without namespace: one page element with a text. *)
Lemma namespace_of_root_witness :
  namespace_of (qualified page_name text_name) = page_name
  ∧ namespace_of page_name = page_name
  ∧ build_counts
      (Xml [(StartEvent, mkElement page_name (λ _, None));
            (EndEvent, mkElement page_name (λ _, Some (Some maha)))] true)
    = inr (∅, 0).
Proof.
  apply (namespace_of_root page_name text_name StartEvent (λ _, None)
           [(EndEvent, mkElement page_name (λ _, Some (Some maha)))]).
  - unfold page_name, lbrace. rewrite !not_elem_of_cons.
    repeat split; (done || apply not_elem_of_nil).
  - unfold page_name, rbrace. rewrite !not_elem_of_cons.
    repeat split; (done || apply not_elem_of_nil).
  - constructor; [done|constructor].
Defined.
